(** * Flight aggregation engine: rate limiter, TTL cache, aggregator

    A shallow embedding of [src/utils/rate-limiter.ts],
    [src/services/cache.ts] and [src/services/aggregator.ts], with the
    properties of their specification stated and proved over it.

    Conventions of the embedding.
    - A JavaScript [number] that carries a quantity (price, token count,
      refill rate) is a rational [Q]: the arithmetic is exact, rounding of
      IEEE doubles and NaN are outside the model.  Clock readings
      ([Date.now()], integer milliseconds), durations in minutes and the
      numbers of a request are integers [Z].
    - A JavaScript string is a [string] of 8-bit code units;
      [slice(0, n)] is [substring 0 n].
    - A [Map] that is iterated is an association list in insertion order
      ([JsMap]); the cache store, which is only looked up, is a [gmap].
    - An [async] function is cut at its [await]s into atomic segments; what
      the environment decides (clock readings, provider outcomes) is an
      argument of the segment. *)

From stdpp Require Import gmap strings.
From Stdlib Require Import List String Ascii ZArith QArith Qminmax Qround.
From Stdlib Require Import Lia Lqa Permutation Sorted Bool DecimalString.
From Stdlib Require DecimalPos DecimalZ.
Import ListNotations.

Local Close Scope Q_scope.
Local Open Scope Z_scope.
Local Open Scope list_scope.
Local Open Scope string_scope.

(** * Part I: the embedding *)

(** ** JavaScript [Map] with insertion-ordered iteration *)

Module JsMap.
Section Ops.
Context {V : Type}.

Definition t := list (string * V).

Definition empty : t := [].

(** [Map.prototype.get] *)
Fixpoint get (k : string) (m : t) : option V :=
  match m with
  | [] => None
  | (k', v) :: m' => if String.eqb k k' then Some v else get k m'
  end.

(** [Map.prototype.set]: an existing key keeps its position and takes the
    new value, a new key is appended. *)
Fixpoint set (k : string) (v : V) (m : t) : t :=
  match m with
  | [] => [(k, v)]
  | (k', v') :: m' =>
      if String.eqb k k' then (k, v) :: m' else (k', v') :: set k v m'
  end.

(** [Map.prototype.values], spread into an array *)
Definition values (m : t) : list V := List.map snd m.

Definition keys (m : t) : list string := List.map fst m.
End Ops.
Arguments t : clear implicits.
End JsMap.

(** ** Record types of [providers/provider.ts] *)

Module NormalizedFlight.
Record t := mk {
  id : string;
  source : string;
  airline : string;
  airline_code : string;
  flight_number : string;
  origin : string;
  destination : string;
  departure_time : string;
  arrival_time : string;
  duration_minutes : Z;
  stops : Z;
  price : Q;
  currency : string;
  deep_link : option string;
  cabin_class : string;
  baggage_included : bool
}.
End NormalizedFlight.

Module ExploreResult.
Record t := mk {
  destination : string;
  destination_name : string;
  price : Q;
  currency : string;
  departure_date : string;
  return_date : string;
  source : string;
  deep_link : option string
}.
End ExploreResult.

(** [a < b] on numbers, as a boolean *)
Definition Qltb (a b : Q) : bool :=
  match Qcompare a b with Lt => true | _ => false end.

(** ** The keep-the-cheapest loop shared by both aggregations

[deduplicate] and the inline loop of [exploreDestinations] are the same
loop over a [Map<string, _>], for two key functions. *)

Section Cheapest.
Context {A : Type}.
Variable key : A -> string.
Variable price : A -> Q.

(** One iteration:
    [const existing = seen.get(key);
     if (!existing || f.price < existing.price) seen.set(key, f);] *)
Definition cheapest_step (seen : JsMap.t A) (f : A) : JsMap.t A :=
  match JsMap.get (key f) seen with
  | None => JsMap.set (key f) f seen
  | Some existing =>
      if Qltb (price f) (price existing)
      then JsMap.set (key f) f seen
      else seen
  end.

Definition cheapest_loop (l : list A) (seen : JsMap.t A) : JsMap.t A :=
  fold_left cheapest_step l seen.

Definition cheapest_by_key (l : list A) : list A :=
  JsMap.values (cheapest_loop l JsMap.empty).
End Cheapest.

(** ** [FlightAggregator.deduplicate] *)

(** [f.departure_time.slice(0, 10)] *)
Definition depDate (f : NormalizedFlight.t) : string :=
  substring 0 10 (NormalizedFlight.departure_time f).

(** The template literal
    [`${airline_code}-${flight_number}-${depDate}-${origin}-${destination}`] *)
Definition flight_key (f : NormalizedFlight.t) : string :=
  NormalizedFlight.airline_code f ++ "-" ++
  NormalizedFlight.flight_number f ++ "-" ++
  depDate f ++ "-" ++
  NormalizedFlight.origin f ++ "-" ++
  NormalizedFlight.destination f.

Definition deduplicate (flights : list NormalizedFlight.t)
  : list NormalizedFlight.t :=
  cheapest_by_key flight_key NormalizedFlight.price flights.

(** ** [Array.prototype.sort] and [Array.prototype.slice]

The engine's sort is the runtime's: since ECMAScript 2019 it is stable,
and for a consistent comparator its result is the sorted stable
rearrangement, which is unique.  That rearrangement is computed here by
insertion from the right: [x] goes before the first [y] with
[cmp x y <= 0], so it never overtakes an element it ties with. *)

Section Sort.
Context {A : Type}.
Variable cmp : A -> A -> Q.

Fixpoint sort_insert (x : A) (l : list A) : list A :=
  match l with
  | [] => [x]
  | y :: t =>
      if Qle_bool (cmp x y) 0%Q then x :: y :: t else y :: sort_insert x t
  end.

Definition js_sort (l : list A) : list A := fold_right sort_insert [] l.
End Sort.

(** [arr.slice(0, end)]: a negative [end] counts from the back, an
    [undefined] one keeps everything. *)
Definition js_slice0 {A : Type} (l : list A) (e : option Z) : list A :=
  match e with
  | None => l
  | Some n =>
      if (n <? 0)%Z
      then firstn (Z.to_nat (Z.max (Z.of_nat (List.length l) + n) 0)) l
      else firstn (Z.to_nat n) l
  end.

(** The comparator of [searchFlights]:
    [if (a.price !== b.price) return a.price - b.price;
     return a.duration_minutes - b.duration_minutes;] *)
Definition compare_flights (a b : NormalizedFlight.t) : Q :=
  if negb (Qeq_bool (NormalizedFlight.price a) (NormalizedFlight.price b))
  then (NormalizedFlight.price a - NormalizedFlight.price b)%Q
  else inject_Z (NormalizedFlight.duration_minutes a
                 - NormalizedFlight.duration_minutes b).

(** The comparator of [exploreDestinations]: [a.price - b.price] *)
Definition compare_destinations (a b : ExploreResult.t) : Q :=
  (ExploreResult.price a - ExploreResult.price b)%Q.

(** Lines 48-52 of the aggregator: dedupe, then sort. *)
Definition dedupe_and_sort (flights : list NormalizedFlight.t)
  : list NormalizedFlight.t :=
  js_sort compare_flights (deduplicate flights).

(** Lines 81-92: dedupe by destination, sort by price, cut at the limit. *)
Definition dedupe_sort_limit (destinations : list ExploreResult.t)
    (limit : option Z) : list ExploreResult.t :=
  let byDest :=
    cheapest_by_key ExploreResult.destination ExploreResult.price
      destinations in
  js_slice0 (js_sort compare_destinations byDest) limit.

(** ** Requests as JavaScript objects, and [JSON.stringify]

A request is an object literal: its own properties in insertion order
(the names used here are not array indices, so insertion order is the
enumeration order). *)

Inductive JsPrim :=
| JsUndefined
| JsString (s : string)
| JsNumber (n : Z).

Definition JsObject := list (string * JsPrim).

Inductive JsValue :=
| JsPrimitive (p : JsPrim)
| JsObj (o : JsObject)
| JsArray (elems : list JsPrim).

(** Property read [o.name] *)
Fixpoint obj_get (name : string) (o : JsObject) : JsPrim :=
  match o with
  | [] => JsUndefined
  | (k, v) :: o' => if String.eqb name k then v else obj_get name o'
  end.

(** [o.name] used where a number is expected ([params.limit]) *)
Definition obj_number (name : string) (o : JsObject) : option Z :=
  match obj_get name o with
  | JsNumber n => Some n
  | _ => None
  end.

Module Json.
Definition dquote : ascii := ascii_of_nat 34.
Definition backslash : ascii := ascii_of_nat 92.

Definition hex_digit (n : nat) : ascii :=
  match get n "0123456789abcdef" with
  | Some c => c
  | None => "0"%char
  end.

(** QuoteJSONString, one code unit *)
Definition escape_char (c : ascii) : string :=
  let n := nat_of_ascii c in
  if Nat.eqb n 34 then String backslash (String dquote EmptyString)
  else if Nat.eqb n 92 then String backslash (String backslash EmptyString)
  else if Nat.eqb n 8 then "\b"
  else if Nat.eqb n 9 then "\t"
  else if Nat.eqb n 10 then "\n"
  else if Nat.eqb n 12 then "\f"
  else if Nat.eqb n 13 then "\r"
  else if Nat.ltb n 32
       then "\u00" ++ String (hex_digit (Nat.div n 16))
                        (String (hex_digit (Nat.modulo n 16)) EmptyString)
  else String c EmptyString.

Fixpoint escape (s : string) : string :=
  match s with
  | EmptyString => EmptyString
  | String c s' => escape_char c ++ escape s'
  end.

Definition quote (s : string) : string :=
  String dquote (escape s ++ String dquote EmptyString).

Definition number_to_string (n : Z) : string :=
  NilZero.string_of_int (Z.to_int n).

(** [JSON.stringify] of a primitive; [undefined] has no serialisation. *)
Definition stringify_prim (p : JsPrim) : option string :=
  match p with
  | JsUndefined => None
  | JsString s => Some (quote s)
  | JsNumber n => Some (number_to_string n)
  end.

(** A property whose value is [undefined] is left out. *)
Definition stringify_property (kv : string * JsPrim) : option string :=
  match stringify_prim (snd kv) with
  | None => None
  | Some v => Some (quote (fst kv) ++ ":" ++ v)
  end.

Fixpoint stringify_properties (o : JsObject) : list string :=
  match o with
  | [] => []
  | kv :: o' =>
      match stringify_property kv with
      | None => stringify_properties o'
      | Some s => s :: stringify_properties o'
      end
  end.

(** An array element that is [undefined] is written [null]. *)
Definition stringify_element (p : JsPrim) : string :=
  match stringify_prim p with
  | None => "null"
  | Some s => s
  end.

Definition stringify (v : JsValue) : option string :=
  match v with
  | JsPrimitive p => stringify_prim p
  | JsObj o => Some ("{" ++ concat "," (stringify_properties o) ++ "}")
  | JsArray l => Some ("[" ++ concat "," (List.map stringify_element l) ++ "]")
  end.
End Json.

(** ** [services/cache.ts] *)

Module TTLCache.
Section Cache.
Context {V : Type}.

Record CacheEntry := { value : V; expires_at : Z }.

Record t := { store : gmap string CacheEntry; default_ttl_ms : Z }.

Definition new (ttl_seconds : Z) : t :=
  {| store := ∅; default_ttl_ms := ttl_seconds * 1000 |}.

(** [get(key)], with [now] the reading of [Date.now()] *)
Definition get (now : Z) (key : string) (c : t) : option V * t :=
  match store c !! key with
  | None => (None, c)
  | Some entry =>
      if (now >? expires_at entry)%Z
      then (None, {| store := delete key (store c);
                     default_ttl_ms := default_ttl_ms c |})
      else (Some (value entry), c)
  end.

(** [set(key, value, ttl_ms?)] *)
Definition set (now : Z) (key : string) (v : V) (ttl_ms : option Z) (c : t)
  : t :=
  let ttl := match ttl_ms with Some x => x | None => default_ttl_ms c end in
  {| store := <[key := {| value := v; expires_at := now + ttl |}]> (store c);
     default_ttl_ms := default_ttl_ms c |}.

Definition clear (c : t) : t :=
  {| store := ∅; default_ttl_ms := default_ttl_ms c |}.
End Cache.
Arguments CacheEntry : clear implicits.
Arguments t : clear implicits.

(** [buildKey(...parts)]: [parts.map(JSON.stringify).join(":")]; [join]
    writes an [undefined] element as the empty string. *)
Definition buildKey (parts : list JsValue) : string :=
  concat ":"
    (List.map (fun p => match Json.stringify p with
                        | Some s => s
                        | None => EmptyString
                        end) parts).
End TTLCache.

(** ** Providers, as the aggregator sees them

[Promise.allSettled] turns every provider call into a settled outcome;
what a provider answers is decided outside the engine, so a provider
value carries its answers for the call at hand. *)

Inductive Settled (A : Type) :=
| fulfilled (value : A)
| rejected (reason : string).
Arguments fulfilled {A} value.
Arguments rejected {A} reason.

Module IFlightProvider.
Record t := {
  name : string;
  isAvailable : bool;
  searchFlights : JsObject -> Settled (list NormalizedFlight.t);
  exploreDestinations :
    option (JsObject -> Settled (list ExploreResult.t))
}.
End IFlightProvider.

(** ** [services/aggregator.ts] *)

Module FlightAggregator.

(** The one cache holds the arrays of both operations. *)
Inductive CacheValue :=
| Flights (l : list NormalizedFlight.t)
| Destinations (l : list ExploreResult.t).

(** The unchecked casts [get<NormalizedFlight[]>] and
    [get<ExploreResult[]>].  A search key starts with the tag "search" and
    an explore key with "explore", so the other shape is never found. *)
Definition as_flights (v : CacheValue) : list NormalizedFlight.t :=
  match v with Flights l => l | Destinations _ => [] end.

Definition as_destinations (v : CacheValue) : list ExploreResult.t :=
  match v with Destinations l => l | Flights _ => [] end.

Record t := {
  providers : list IFlightProvider.t;
  cache : TTLCache.t CacheValue
}.

Definition new (ps : list IFlightProvider.t) : t :=
  {| providers := ps; cache := TTLCache.new 300 |}.

(** What one call leaves behind: the returned array, the aggregator with
    its cache, the providers that were called, the diagnostics. *)
Record Run (A : Type) := {
  returned : A;
  after : t;
  invoked : list string;
  errors : list string
}.
Arguments returned {A} _.
Arguments after {A} _.
Arguments invoked {A} _.
Arguments errors {A} _.

Definition filter_value (f : option (list string)) : JsValue :=
  match f with
  | None => JsPrimitive JsUndefined
  | Some names => JsArray (List.map JsString names)
  end.

(** [this.cache.buildKey(operation, params, sourcesFilter)] *)
Definition cache_key (operation : string) (params : JsObject)
    (sourcesFilter : option (list string)) : string :=
  TTLCache.buildKey
    [JsPrimitive (JsString operation); JsObj params;
     filter_value sourcesFilter].

(** [filter.includes(p.name)] *)
Definition includes (names : list string) (n : string) : bool :=
  existsb (String.eqb n) names.

Definition getActiveProviders (agg : t) (f : option (list string))
  : list IFlightProvider.t :=
  List.filter
    (fun p =>
       if negb (IFlightProvider.isAvailable p) then false
       else match f with
            | Some names =>
                if (0 <? Z.of_nat (List.length names))%Z
                   && negb (includes names (IFlightProvider.name p))
                then false else true
            | None => true
            end)
    (providers agg).

(** The loop over the settled results (lines 32-42). *)
Definition collect_step
    (acc : list NormalizedFlight.t * list string)
    (pr : IFlightProvider.t * Settled (list NormalizedFlight.t))
  : list NormalizedFlight.t * list string :=
  match snd pr with
  | fulfilled v => ((fst acc ++ v)%list, snd acc)
  | rejected reason =>
      (fst acc,
       (snd acc
        ++ [(IFlightProvider.name (fst pr) ++ ": " ++ reason)%string])%list)
  end.

Definition collect (active : list IFlightProvider.t)
    (results : list (Settled (list NormalizedFlight.t)))
  : list NormalizedFlight.t * list string :=
  fold_left collect_step (combine active results) ([], []).

Definition searchFlights (agg : t) (now_get now_set : Z)
    (params : JsObject) (sourcesFilter : option (list string))
  : Run (list NormalizedFlight.t) :=
  let cacheKey := cache_key "search" params sourcesFilter in
  let (cached, cache1) := TTLCache.get now_get cacheKey (cache agg) in
  match cached with
  | Some v =>
      {| returned := as_flights v;
         after := {| providers := providers agg; cache := cache1 |};
         invoked := []; errors := [] |}
  | None =>
      let active := getActiveProviders agg sourcesFilter in
      let results :=
        List.map (fun p => IFlightProvider.searchFlights p params) active in
      let (flights, errs) := collect active results in
      let sorted := dedupe_and_sort flights in
      {| returned := sorted;
         after := {| providers := providers agg;
                     cache := TTLCache.set now_set cacheKey (Flights sorted)
                                None cache1 |};
         invoked := List.map IFlightProvider.name active;
         errors := errs |}
  end.

(** [.filter((p) => p.exploreDestinations)] and the calls of line 71 *)
Fixpoint explore_calls (active : list IFlightProvider.t) (params : JsObject)
  : list (string * Settled (list ExploreResult.t)) :=
  match active with
  | [] => []
  | p :: rest =>
      match IFlightProvider.exploreDestinations p with
      | Some f =>
          (IFlightProvider.name p, f params) :: explore_calls rest params
      | None => explore_calls rest params
      end
  end.

(** The loop of lines 74-79: rejected results are skipped. *)
Definition collect_destinations
    (results : list (Settled (list ExploreResult.t)))
  : list ExploreResult.t :=
  fold_left
    (fun acc r => match r with
                  | fulfilled v => (acc ++ v)%list
                  | rejected _ => acc
                  end)
    results [].

Definition exploreDestinations (agg : t) (now_get now_set : Z)
    (params : JsObject) (sourcesFilter : option (list string))
  : Run (list ExploreResult.t) :=
  let cacheKey := cache_key "explore" params sourcesFilter in
  let (cached, cache1) := TTLCache.get now_get cacheKey (cache agg) in
  match cached with
  | Some v =>
      {| returned := as_destinations v;
         after := {| providers := providers agg; cache := cache1 |};
         invoked := []; errors := [] |}
  | None =>
      let calls :=
        explore_calls (getActiveProviders agg sourcesFilter) params in
      let destinations := collect_destinations (List.map snd calls) in
      let sorted :=
        dedupe_sort_limit destinations (obj_number "limit" params) in
      {| returned := sorted;
         after := {| providers := providers agg;
                     cache := TTLCache.set now_set cacheKey
                                (Destinations sorted) None cache1 |};
         invoked := List.map fst calls;
         errors := [] |}
  end.
End FlightAggregator.

(** ** [utils/rate-limiter.ts] *)

Module RateLimiter.
Record t := {
  tokens : Q;
  last_refill : Z;
  max_tokens : Q;
  refill_rate : Q
}.

(** [new RateLimiter(max_tokens, refill_rate)], constructed at [now] *)
Definition new (max rate : Q) (now : Z) : t :=
  {| tokens := max; last_refill := now;
     max_tokens := max; refill_rate := rate |}.

Definition refill (now : Z) (rl : t) : t :=
  let elapsed_s := (inject_Z (now - last_refill rl) / 1000)%Q in
  {| tokens := Qmin (max_tokens rl)
                 (tokens rl + elapsed_s * refill_rate rl)%Q;
     last_refill := now;
     max_tokens := max_tokens rl;
     refill_rate := refill_rate rl |}.

(** [this.tokens -= 1] *)
Definition consume (rl : t) : t :=
  {| tokens := (tokens rl - 1)%Q;
     last_refill := last_refill rl;
     max_tokens := max_tokens rl;
     refill_rate := refill_rate rl |}.

Definition wait_ms (rl : t) : Q :=
  (((1 - tokens rl) / refill_rate rl) * 1000)%Q.

(** How a call of [acquire] leaves its first segment. *)
Inductive Path :=
| Immediate
| Suspended (wait : Q).

(** [acquire] up to its [await] (lines 15-22) *)
Definition acquire_enter (now : Z) (rl : t) : Path * t :=
  let rl1 := refill now rl in
  if Qle_bool 1 (tokens rl1)
  then (Immediate, consume rl1)
  else (Suspended (wait_ms rl1), rl1).

(** [acquire] after the timer fired (lines 23-24) *)
Definition acquire_resume (now : Z) (rl : t) : t :=
  consume (refill now rl).

(** One whole call with nothing running in between: [now] is the clock on
    entry, [later] the clock when the timer has fired. *)
Definition acquire (now later : Z) (rl : t) : t :=
  match acquire_enter now rl with
  | (Immediate, rl') => rl'
  | (Suspended _, rl') => acquire_resume later rl'
  end.

(** Calls that overlap: the segments of several calls in the order the
    event loop runs them. *)
Inductive Segment :=
| Enter (now : Z)
| Resume (now : Z).

Definition run_segment (rl : t) (s : Segment) : t :=
  match s with
  | Enter now => snd (acquire_enter now rl)
  | Resume now => acquire_resume now rl
  end.

Definition run_segments (rl : t) (ss : list Segment) : t :=
  fold_left run_segment ss rl.
End RateLimiter.

(** * Part I, continued: the vocabulary of the properties *)

Local Open Scope list_scope.

Section CheapestSpec.
Context {A : Type}.
Variable key : A -> string.
Variable price : A -> Q.

(** [v] is cheapest for its key in [l], and comes before every other
    element of its key with the same price. *)
Definition first_cheapest (l : list A) (v : A) : Prop :=
  exists l1 l2,
    l = l1 ++ v :: l2 /\
    (forall f, In f l1 -> key f = key v -> (price v < price f)%Q) /\
    (forall f, In f l2 -> key f = key v -> (price v <= price f)%Q).

(** The loop invariant: [m] is the map after the elements of [l]. *)
Record cheapest_inv (l : list A) (m : JsMap.t A) : Prop := {
  inv_nodup : NoDup (JsMap.keys m);
  inv_value : forall k v,
      JsMap.get k m = Some v -> key v = k /\ first_cheapest l v;
  inv_cover : forall f, In f l -> JsMap.get (key f) m <> None
}.
End CheapestSpec.
Arguments inv_nodup {A key price l m}.
Arguments inv_value {A key price l m}.
Arguments inv_cover {A key price l m}.

(** The composite key as the specification words it: the five fields, as a
    tuple. *)
Definition composite_key (f : NormalizedFlight.t)
  : string * string * string * string * string :=
  (NormalizedFlight.airline_code f, NormalizedFlight.flight_number f,
   depDate f, NormalizedFlight.origin f, NormalizedFlight.destination f).

(** Ascending by price, ties by ascending duration. *)
Definition price_then_duration (a b : NormalizedFlight.t) : Prop :=
  (NormalizedFlight.price a < NormalizedFlight.price b)%Q \/
  ((NormalizedFlight.price a == NormalizedFlight.price b)%Q /\
   (NormalizedFlight.duration_minutes a
    <= NormalizedFlight.duration_minutes b)%Z).

(** Offers of price [p] and duration [d]. *)
Definition tied (p : Q) (d : Z) (f : NormalizedFlight.t) : bool :=
  Qeq_bool (NormalizedFlight.price f) p
  && Z.eqb (NormalizedFlight.duration_minutes f) d.

Definition price_le (a b : ExploreResult.t) : Prop :=
  (ExploreResult.price a <= ExploreResult.price b)%Q.

(** The offers of the providers whose call was fulfilled, in provider
    order: the flattened candidate set. *)
Definition successful_offers (active : list IFlightProvider.t)
    (params : JsObject) : list NormalizedFlight.t :=
  flat_map (fun p => match IFlightProvider.searchFlights p params with
                     | fulfilled v => v
                     | rejected _ => []
                     end) active.

(** One diagnostic per provider whose call was rejected. *)
Definition failure_reports (active : list IFlightProvider.t)
    (params : JsObject) : list string :=
  flat_map (fun p => match IFlightProvider.searchFlights p params with
                     | fulfilled _ => []
                     | rejected reason =>
                         [(IFlightProvider.name p ++ ": " ++ reason)%string]
                     end) active.

Definition successful_destinations (active : list IFlightProvider.t)
    (params : JsObject) : list ExploreResult.t :=
  flat_map (fun p => match IFlightProvider.exploreDestinations p with
                     | Some f => match f params with
                                 | fulfilled v => v
                                 | rejected _ => []
                                 end
                     | None => []
                     end) active.

(** The properties that [JSON.stringify] writes: those whose value is not
    [undefined], in insertion order. *)
Definition defined_properties (o : JsObject) : JsObject :=
  List.filter (fun kv => match snd kv with
                         | JsUndefined => false
                         | _ => true
                         end) o.

(** Calls of [acquire] one after the other: each is the pair of its clock
    readings, on entry and after the timer. *)
Definition run_acquires (rl : RateLimiter.t) (calls : list (Z * Z))
  : RateLimiter.t :=
  fold_left (fun rl c => RateLimiter.acquire (fst c) (snd c) rl) calls rl.



(** The bucket after [k] calls entered at the instant of construction. *)
Definition after_burst (capacity rate : Q) (t0 : Z) (k : nat)
  : RateLimiter.t :=
  RateLimiter.run_segments (RateLimiter.new capacity rate t0)
    (repeat (RateLimiter.Enter t0) k).

(** What holds of the bucket after [k] such calls, while they all return
    at once. *)
Definition burst_inv (capacity rate : Q) (t0 : Z) (k : nat) : Prop :=
  (RateLimiter.tokens (after_burst capacity rate t0 k)
   == capacity - inject_Z (Z.of_nat k))%Q /\
  RateLimiter.last_refill (after_burst capacity rate t0 k) = t0 /\
  RateLimiter.max_tokens (after_burst capacity rate t0 k) = capacity.

(** ** Concrete inputs *)

(** Two offers of different flights whose joined keys coincide: Ryanair's
    flight number carries the route, another source splits the same text
    differently between carrier and number. *)
Definition ryanair_offer : NormalizedFlight.t :=
  NormalizedFlight.mk "ryanair-KRK-STN-2025-06-01" "ryanair" "Ryanair"
    "FR" "FR-KRK-STN" "KRK" "STN"
    "2025-06-01T06:10:00.000" "2025-06-01T07:40:00.000"
    0 0 (199 # 1) "PLN" None "economy" false.

Definition other_offer : NormalizedFlight.t :=
  NormalizedFlight.mk "kiwi-1" "kiwi" "Other" "FR-FR" "KRK-STN" "KRK" "STN"
    "2025-06-01T09:00:00.000Z" "2025-06-01T10:30:00.000Z"
    90 0 (250 # 1) "PLN" (Some "https://example.org/book") "economy" true.

(** Two spellings of one request, as [handleSearchFlights] and a caller
    that lists the destination first would write it. *)
Definition request_origin_first : JsObject :=
  [("origin", JsString "KRK"); ("destination", JsString "STN");
   ("date_from", JsString "2025-06-01"); ("passengers", JsNumber 1)].

Definition request_destination_first : JsObject :=
  [("destination", JsString "STN"); ("origin", JsString "KRK");
   ("date_from", JsString "2025-06-01"); ("passengers", JsNumber 1)].

(** The object literals of [handleSearchFlights] (optional inputs absent)
    and of [handleCompare], for one route and date. *)
Definition request_of_search_tool : JsObject :=
  [("origin", JsString "KRK"); ("destination", JsString "STN");
   ("date_from", JsString "2025-06-01"); ("date_to", JsUndefined);
   ("return_date_from", JsUndefined); ("return_date_to", JsUndefined);
   ("passengers", JsNumber 1); ("max_stops", JsNumber 2);
   ("max_price", JsUndefined)].

Definition request_of_compare_tool : JsObject :=
  [("origin", JsString "KRK"); ("destination", JsString "STN");
   ("date_from", JsString "2025-06-01"); ("return_date_from", JsUndefined);
   ("passengers", JsNumber 1); ("max_stops", JsNumber 2)].

Definition offer (src code number dep : string) (minutes : Z) (p : Q)
  : NormalizedFlight.t :=
  NormalizedFlight.mk (src ++ "-" ++ number)%string src code code number
    "KRK" "STN" dep dep minutes 0 p "PLN" None "economy" false.

(** Three sources, one of them failing. *)
Definition kiwi_answers : IFlightProvider.t :=
  {| IFlightProvider.name := "kiwi";
     IFlightProvider.isAvailable := true;
     IFlightProvider.searchFlights := fun _ =>
       fulfilled
         [offer "kiwi" "LO" "LO281" "2025-06-01T07:00:00" 150 (420 # 1);
          offer "kiwi" "W6" "W61301" "2025-06-01T09:30:00" 155 (310 # 1)];
     IFlightProvider.exploreDestinations := Some (fun _ =>
       fulfilled [ExploreResult.mk "STN" "London" (310 # 1) "PLN"
                    "2025-06-01" "2025-06-05" "kiwi" None;
                  ExploreResult.mk "BGY" "Bergamo" (180 # 1) "PLN"
                    "2025-06-02" "2025-06-06" "kiwi" None;
                  ExploreResult.mk "CDG" "Paris" (450 # 1) "PLN"
                    "2025-06-03" "2025-06-07" "kiwi" None]) |}.

Definition amadeus_fails : IFlightProvider.t :=
  {| IFlightProvider.name := "amadeus";
     IFlightProvider.isAvailable := true;
     IFlightProvider.searchFlights := fun _ =>
       rejected "Error: Amadeus API error: 500";
     IFlightProvider.exploreDestinations := None |}.

Definition serpapi_answers : IFlightProvider.t :=
  {| IFlightProvider.name := "serpapi";
     IFlightProvider.isAvailable := true;
     IFlightProvider.searchFlights := fun _ =>
       fulfilled
         [offer "serpapi" "LO" "LO281" "2025-06-01T07:00:00" 150 (390 # 1)];
     IFlightProvider.exploreDestinations := Some (fun _ =>
       fulfilled [ExploreResult.mk "BGY" "Bergamo" (199 # 1) "PLN"
                    "2025-06-02" "2025-06-06" "serpapi" None;
                  ExploreResult.mk "STN" "London" (290 # 1) "PLN"
                    "2025-06-01" "2025-06-05" "serpapi" None]) |}.

Definition three_sources : FlightAggregator.t :=
  FlightAggregator.new [kiwi_answers; amadeus_fails; serpapi_answers].

Definition explore_request : JsObject :=
  [("origin", JsString "KRK"); ("date_from", JsString "2025-06-01");
   ("date_to", JsString "2025-06-30"); ("max_price", JsUndefined);
   ("nights_min", JsNumber 2); ("nights_max", JsNumber 7);
   ("limit", JsNumber 2)].

(** The scenario of the specification: one flight offered by three sources
    at 420, 390 and 390. *)
Definition same_flight (src : string) (p : Q) : NormalizedFlight.t :=
  offer src "LO" "LO281" "2025-06-01T07:00:00" 150 p.

Definition three_prices : list NormalizedFlight.t :=
  [same_flight "kiwi" (420 # 1); same_flight "amadeus" (390 # 1);
   same_flight "serpapi" (390 # 1)].

(** The providers a while later: only one is left, with a new price. *)
Definition later_sources : list IFlightProvider.t :=
  [{| IFlightProvider.name := "kiwi";
      IFlightProvider.isAvailable := true;
      IFlightProvider.searchFlights := fun _ =>
        fulfilled [same_flight "kiwi" (405 # 1)];
      IFlightProvider.exploreDestinations := None |}].


(** ** More vocabulary: the cache *)

(** The expiry that [set] gives an entry: the clock plus the TTL passed,
    or plus the default one. *)
Definition expiry_of {V : Type} (c : TTLCache.t V) (now : Z)
    (ttl_ms : option Z) : Z :=
  now + match ttl_ms with Some x => x | None => TTLCache.default_ttl_ms c end.

(** ** More vocabulary: token accounting *)




(** ** More vocabulary: the aggregator *)

(** A provider name passes the source filter: there is no filter, the
    filter is empty, or the name is listed. *)
Definition passes_filter (f : option (list string)) (n : string) : Prop :=
  match f with
  | None => True
  | Some [] => True
  | Some names => In n names
  end.

(** The number of distinct values of [key] over a list. *)
Definition distinct_keys {A : Type} (key : A -> string) (l : list A) : nat :=
  List.length (nodup string_dec (List.map key l)).

(** Whether a provider has the explore capability. *)
Definition can_explore (p : IFlightProvider.t) : bool :=
  match IFlightProvider.exploreDestinations p with
  | Some _ => true
  | None => false
  end.

(** ** More vocabulary: reading a key back

    Nothing in the engine parses a key.  These readers exist to show that
    a key determines what it was built from. *)

Module JsonRead.

Definition unhex (c : ascii) : option nat :=
  let n := nat_of_ascii c in
  if Nat.leb 48 n && Nat.leb n 57 then Some (n - 48)%nat
  else if Nat.leb 97 n && Nat.leb n 102 then Some (n - 87)%nat
  else None.

(** The code unit that an escaped string starts with, and what follows. *)
Definition unescape_head (s : string) : option (ascii * string) :=
  match s with
  | EmptyString => None
  | String c rest =>
      if Ascii.eqb c Json.dquote then None
      else if Ascii.eqb c Json.backslash then
        match rest with
        | EmptyString => None
        | String e rest' =>
            if Ascii.eqb e Json.dquote then Some (Json.dquote, rest')
            else if Ascii.eqb e Json.backslash
                 then Some (Json.backslash, rest')
            else if Ascii.eqb e "b" then Some (ascii_of_nat 8, rest')
            else if Ascii.eqb e "t" then Some (ascii_of_nat 9, rest')
            else if Ascii.eqb e "n" then Some (ascii_of_nat 10, rest')
            else if Ascii.eqb e "f" then Some (ascii_of_nat 12, rest')
            else if Ascii.eqb e "r" then Some (ascii_of_nat 13, rest')
            else if Ascii.eqb e "u" then
              match rest' with
              | String _ (String _ (String h (String l rest''))) =>
                  match unhex h, unhex l with
                  | Some a, Some b =>
                      Some (ascii_of_nat (16 * a + b), rest'')
                  | _, _ => None
                  end
              | _ => None
              end
            else None
        end
      else Some (c, rest)
  end.

Definition number_of_string (s : string) : option Z :=
  option_map Z.of_int (NilZero.int_of_string s).

(** The characters a serialised integer is made of. *)
Definition is_number_char (c : ascii) : bool :=
  let n := nat_of_ascii c in
  Nat.eqb n 45 || (Nat.leb 48 n && Nat.leb n 57).

Fixpoint all_number_chars (s : string) : bool :=
  match s with
  | EmptyString => true
  | String c rest => is_number_char c && all_number_chars rest
  end.

(** A text that cannot continue a number. *)
Definition ends_number (s : string) : Prop :=
  match s with
  | EmptyString => True
  | String c _ => is_number_char c = false
  end.

End JsonRead.

(** A property value that [JSON.stringify] writes. *)
Definition is_defined (p : JsPrim) : bool :=
  match p with JsUndefined => false | _ => true end.

(** The text [JSON.stringify] writes for a defined property value, and
    for a property. *)
Definition value_string (v : JsPrim) : string :=
  match Json.stringify_prim v with
  | Some s => s
  | None => EmptyString
  end.

Definition property_string (kv : string * JsPrim) : string :=
  Json.quote (fst kv) ++ ":" ++ value_string (snd kv).

(** What follows the first element of a comma-separated list that is
    closed by [T]. *)
Fixpoint more_elements (l : list string) (T : string) : string :=
  match l with
  | [] => T
  | x :: xs => "," ++ x ++ more_elements xs T
  end.

(** The text of a source filter in a key: nothing for no filter, a JSON
    array of names otherwise. *)
Definition filter_string (f : option (list string)) : string :=
  match f with
  | None => EmptyString
  | Some names =>
      String "[" (concat "," (List.map Json.quote names) ++ String "]" "")
  end.

(** ** More vocabulary: the life of an aggregator

    The process builds one aggregator and serves calls with it.  A call is
    what it was asked and what the environment decided for it: the
    providers as they answer at that time, and the two clock readings. *)

Inductive Call :=
| SearchCall (providers : list IFlightProvider.t) (now_get now_set : Z)
    (params : JsObject) (sourcesFilter : option (list string))
| ExploreCall (providers : list IFlightProvider.t) (now_get now_set : Z)
    (params : JsObject) (sourcesFilter : option (list string)).

Definition call_params (c : Call) : JsObject :=
  match c with
  | SearchCall _ _ _ params _ => params
  | ExploreCall _ _ _ params _ => params
  end.

(** The cache after one more call. *)
Definition run_call (cache : TTLCache.t FlightAggregator.CacheValue)
    (c : Call) : TTLCache.t FlightAggregator.CacheValue :=
  match c with
  | SearchCall ps now_get now_set params sourcesFilter =>
      FlightAggregator.cache
        (FlightAggregator.after
           (FlightAggregator.searchFlights
              {| FlightAggregator.providers := ps;
                 FlightAggregator.cache := cache |}
              now_get now_set params sourcesFilter))
  | ExploreCall ps now_get now_set params sourcesFilter =>
      FlightAggregator.cache
        (FlightAggregator.after
           (FlightAggregator.exploreDestinations
              {| FlightAggregator.providers := ps;
                 FlightAggregator.cache := cache |}
              now_get now_set params sourcesFilter))
  end.

(** The cache of an aggregator built by [new FlightAggregator(...)] after
    a history of calls. *)
Definition cache_after (history : list Call)
  : TTLCache.t FlightAggregator.CacheValue :=
  fold_left run_call history (TTLCache.new 300).

(** An object has each property name once. *)
Definition well_formed (o : JsObject) : Prop := NoDup (List.map fst o).

(** ** The tool handlers, up to the rendering of the table

    [tools/search-flights.ts], [tools/compare-prices.ts] and
    [tools/explore-cheap.ts]: each builds the request object from its
    parsed input and calls the aggregator. *)

Definition optional_string (s : option string) : JsPrim :=
  match s with Some x => JsString x | None => JsUndefined end.

Definition optional_number (n : option Z) : JsPrim :=
  match n with Some x => JsNumber x | None => JsUndefined end.

Module SearchFlightsInput.
Record t := {
  origin : string;
  destination : string;
  date_from : string;
  date_to : option string;
  return_date_from : option string;
  return_date_to : option string;
  passengers : Z;
  max_stops : Z;
  max_price : option Z;
  sources : option (list string)
}.
End SearchFlightsInput.

Module CompareInput.
Record t := {
  origin : string;
  destination : string;
  date : string;
  return_date : option string
}.
End CompareInput.

Module ExploreInput.
Record t := {
  origin : string;
  date_from : string;
  date_to : string;
  max_price : option Z;
  nights_min : Z;
  nights_max : Z;
  limit : Z
}.
End ExploreInput.



(** The object literal of [handleCompare] (lines 25-32). *)
Definition compare_tool_params (input : CompareInput.t) : JsObject :=
  [("origin", JsString (CompareInput.origin input));
   ("destination", JsString (CompareInput.destination input));
   ("date_from", JsString (CompareInput.date input));
   ("return_date_from", optional_string (CompareInput.return_date input));
   ("passengers", JsNumber 1);
   ("max_stops", JsNumber 2)].

Definition handleCompare (input : CompareInput.t)
    (aggregator : FlightAggregator.t) (now_get now_set : Z)
  : FlightAggregator.Run (list NormalizedFlight.t) :=
  FlightAggregator.searchFlights aggregator now_get now_set
    (compare_tool_params input) None.

(** The object literal of [handleExplore] (lines 40-48). *)
Definition explore_tool_params (input : ExploreInput.t) : JsObject :=
  [("origin", JsString (ExploreInput.origin input));
   ("date_from", JsString (ExploreInput.date_from input));
   ("date_to", JsString (ExploreInput.date_to input));
   ("max_price", optional_number (ExploreInput.max_price input));
   ("nights_min", JsNumber (ExploreInput.nights_min input));
   ("nights_max", JsNumber (ExploreInput.nights_max input));
   ("limit", JsNumber (ExploreInput.limit input))].

Definition handleExplore (input : ExploreInput.t)
    (aggregator : FlightAggregator.t) (now_get now_set : Z)
  : FlightAggregator.Run (list ExploreResult.t) :=
  FlightAggregator.exploreDestinations aggregator now_get now_set
    (explore_tool_params input) None.


(** Every search entry of a cache holds the aggregation of some list of
    candidates. *)
Definition search_entries_aggregated
    (c : TTLCache.t FlightAggregator.CacheValue) : Prop :=
  forall params sourcesFilter entry,
    TTLCache.store c !! FlightAggregator.cache_key "search" params
                          sourcesFilter = Some entry ->
    exists flights,
      TTLCache.value entry
      = FlightAggregator.Flights (dedupe_and_sort flights).

(** Every explore entry of a cache holds a list that was cut at the limit
    of a request with the same defined properties as any request that can
    read it. *)
Definition explore_entries_limited
    (c : TTLCache.t FlightAggregator.CacheValue) : Prop :=
  forall params sourcesFilter entry,
    TTLCache.store c !! FlightAggregator.cache_key "explore" params
                          sourcesFilter = Some entry ->
    exists destinations params0,
      TTLCache.value entry
      = FlightAggregator.Destinations
          (dedupe_sort_limit destinations (obj_number "limit" params0)) /\
      well_formed params0 /\
      defined_properties params0 = defined_properties params.

(** A short history: a search, then an explore, a minute apart. *)
Definition two_calls : list Call :=
  [SearchCall [kiwi_answers; amadeus_fails; serpapi_answers] 0 40
     request_of_search_tool None;
   ExploreCall [kiwi_answers; amadeus_fails; serpapi_answers] 60000 60050
     explore_request None].

Definition krakow_explore : ExploreInput.t :=
  {| ExploreInput.origin := "KRK";
     ExploreInput.date_from := "2025-06-01";
     ExploreInput.date_to := "2025-06-30";
     ExploreInput.max_price := None;
     ExploreInput.nights_min := 2;
     ExploreInput.nights_max := 7;
     ExploreInput.limit := 2 |}.

(** ** [utils/formatting.ts]: which flight each comparison row shows

    [formatCompareTable] groups the flights by source and shows, for each
    of six sources, the first flight of its group.  The rendering of a row
    as text is outside the model; which flight a row is built from is
    inside. *)

(** The grouping loop (lines 63-68):
    [const list = bySource.get(f.source) ?? [];
     list.push(f); bySource.set(f.source, list);] *)
Definition group_step (bySource : JsMap.t (list NormalizedFlight.t))
    (f : NormalizedFlight.t) : JsMap.t (list NormalizedFlight.t) :=
  let list := match JsMap.get (NormalizedFlight.source f) bySource with
              | Some l => l
              | None => []
              end in
  JsMap.set (NormalizedFlight.source f) (list ++ [f])%list bySource.

Definition group_by_source (flights : list NormalizedFlight.t)
  : JsMap.t (list NormalizedFlight.t) :=
  fold_left group_step flights JsMap.empty.

(** The sources that get a row (line 75). *)
Definition compare_sources : list string :=
  ["kiwi"; "amadeus"; "serpapi"; "ryanair"; "skyscanner"; "flightapi"].

(** The flight behind the row of [src]: none ("N/A") when the group is
    missing or empty, else [srcFlights[0]] (lines 77-82). *)
Definition compare_row (bySource : JsMap.t (list NormalizedFlight.t))
    (src : string) : option NormalizedFlight.t :=
  match JsMap.get src bySource with
  | None => None
  | Some [] => None
  | Some (cheapest :: _) => Some cheapest
  end.

(** The rows of the table; no table at all for no flights (line 61). *)
Definition compare_rows (flights : list NormalizedFlight.t)
  : option (list (string * option NormalizedFlight.t)) :=
  match flights with
  | [] => None
  | _ =>
      let bySource := group_by_source flights in
      Some (List.map (fun src => (src, compare_row bySource src))
              compare_sources)
  end.

(** The flights of one source, in the order of the list. *)
Definition of_source (src : string) (flights : list NormalizedFlight.t)
  : list NormalizedFlight.t :=
  List.filter (fun f => String.eqb (NormalizedFlight.source f) src) flights.

(** ** [providers/ryanair.ts]: from the fares of the reply to offers

    What [RyanairProvider.searchFlights] does once the limiter has let it
    through and the HTTP exchange is over.  The request is read through
    its TypeScript type [SearchParams]. *)

Module SearchParams.
Record t := {
  origin : string;
  destination : string;
  date_from : string;
  date_to : option string;
  return_date_from : option string;
  return_date_to : option string;
  passengers : Z;
  max_stops : Z;
  max_price : option Z
}.
End SearchParams.

Module Ryanair.

Record FarePrice := { value : Q; currencyCode : option string }.

Record Fare := {
  departureDate : string;
  arrivalDate : option string;
  price : option FarePrice
}.

(** How the HTTP exchange ended: [fetch] or [resp.json()] threw, the
    status was not a success, or the body was read ([data.outbound?.fares],
    which may be missing). *)
Inductive Reply :=
| Threw (reason : string)
| Status (status : Z)
| Body (fares : option (list Fare)).

(** [params.date_to] as a condition: a missing or empty string is falsy. *)
Definition given_date (d : option string) : option string :=
  match d with
  | Some s => if String.eqb s "" then None else Some s
  | None => None
  end.

(** [params.max_price] as a condition: missing or zero is falsy. *)
Definition given_price (m : option Z) : option Z :=
  match m with
  | Some n => if (n =? 0)%Z then None else Some n
  | None => None
  end.

(** One iteration of the loop of lines 43-71: the offer pushed for a fare,
    or nothing when the fare is skipped.  [<] and [>] on strings compare
    code unit by code unit, as [String.ltb] does character by character;
    [slice(0, 10)] keeps the first ten, or all when there are fewer.
    [max_price] is an integer here, as the numbers of a request are
    throughout. *)
Definition offer_of_fare (params : SearchParams.t) (fare : Fare)
  : option NormalizedFlight.t :=
  match price fare with
  | None => None
  | Some p =>
      if String.eqb (departureDate fare) "" then None
      else
        let fareDate := substring 0 10 (departureDate fare) in
        if String.ltb fareDate (SearchParams.date_from params) then None
        else if match given_date (SearchParams.date_to params) with
                | Some date_to => String.ltb date_to fareDate
                | None =>
                    negb (String.eqb fareDate (SearchParams.date_from params))
                end then None
        else if match given_price (SearchParams.max_price params) with
                | Some max_price => Qltb (inject_Z max_price) (value p)
                | None => false
                end then None
        else
          Some
            {| NormalizedFlight.id :=
                 "ryanair-" ++ SearchParams.origin params ++ "-"
                 ++ SearchParams.destination params ++ "-" ++ fareDate;
               NormalizedFlight.source := "ryanair";
               NormalizedFlight.airline := "Ryanair";
               NormalizedFlight.airline_code := "FR";
               NormalizedFlight.flight_number :=
                 "FR-" ++ SearchParams.origin params ++ "-"
                 ++ SearchParams.destination params;
               NormalizedFlight.origin := SearchParams.origin params;
               NormalizedFlight.destination :=
                 SearchParams.destination params;
               NormalizedFlight.departure_time := departureDate fare;
               NormalizedFlight.arrival_time :=
                 match arrivalDate fare with
                 | Some a => a
                 | None => departureDate fare
                 end;
               NormalizedFlight.duration_minutes := 0;
               NormalizedFlight.stops := 0;
               NormalizedFlight.price := value p;
               NormalizedFlight.currency :=
                 match currencyCode p with
                 | Some c => c
                 | None => "PLN"
                 end;
               NormalizedFlight.deep_link := None;
               NormalizedFlight.cabin_class := "economy";
               NormalizedFlight.baggage_included := false |}
  end.

Fixpoint offers_of_fares (params : SearchParams.t) (fares : list Fare)
  : list NormalizedFlight.t :=
  match fares with
  | [] => []
  | fare :: rest =>
      match offer_of_fare params fare with
      | Some f => f :: offers_of_fares params rest
      | None => offers_of_fares params rest
      end
  end.

(** [searchFlights] from the reply on (lines 34-73). *)
Definition searchFlights (params : SearchParams.t) (reply : Reply)
  : Settled (list NormalizedFlight.t) :=
  match reply with
  | Threw reason => rejected reason
  | Status status =>
      if (status =? 404)%Z then fulfilled []
      else rejected ("Error: Ryanair API error: "
                     ++ Json.number_to_string status)
  | Body fares =>
      fulfilled
        (offers_of_fares params
           (match fares with Some l => l | None => [] end))
  end.

End Ryanair.

(** A request for one day, and the fares of a month. *)
Definition krakow_to_stansted : SearchParams.t :=
  {| SearchParams.origin := "KRK";
     SearchParams.destination := "STN";
     SearchParams.date_from := "2025-06-01";
     SearchParams.date_to := Some "2025-06-03";
     SearchParams.return_date_from := None;
     SearchParams.return_date_to := None;
     SearchParams.passengers := 1;
     SearchParams.max_stops := 1;
     SearchParams.max_price := Some 300 |}.

Definition june_fares : list Ryanair.Fare :=
  [{| Ryanair.departureDate := "2025-06-01T06:10:00";
      Ryanair.arrivalDate := Some "2025-06-01T07:40:00";
      Ryanair.price := Some {| Ryanair.value := 199 # 1;
                               Ryanair.currencyCode := Some "PLN" |} |};
   {| Ryanair.departureDate := "2025-06-02T06:10:00";
      Ryanair.arrivalDate := None;
      Ryanair.price := None |};
   {| Ryanair.departureDate := "2025-06-03T21:00:00";
      Ryanair.arrivalDate := None;
      Ryanair.price := Some {| Ryanair.value := 350 # 1;
                               Ryanair.currencyCode := None |} |};
   {| Ryanair.departureDate := "2025-06-03T06:10:00";
      Ryanair.arrivalDate := None;
      Ryanair.price := Some {| Ryanair.value := 149 # 1;
                               Ryanair.currencyCode := None |} |};
   {| Ryanair.departureDate := "2025-06-04T06:10:00";
      Ryanair.arrivalDate := None;
      Ryanair.price := Some {| Ryanair.value := 99 # 1;
                               Ryanair.currencyCode := None |} |}].

(** * Part II: properties *)

Local Open Scope list_scope.

(** ** Numbers *)

Lemma Qltb_true (a b : Q) : Qltb a b = true <-> (a < b)%Q.
Proof.
  unfold Qltb. rewrite Qlt_alt.
  destruct (a ?= b)%Q; split; congruence.
Qed.

Lemma Qltb_false (a b : Q) : Qltb a b = false <-> (b <= a)%Q.
Proof.
  split; intros H.
  - apply Qnot_lt_le. intros Hlt. apply Qltb_true in Hlt. congruence.
  - destruct (Qltb a b) eqn:E; [|reflexivity].
    apply Qltb_true in E. exfalso. apply (Qlt_not_le _ _ E H).
Qed.

(** ** Facts about [JsMap] *)

Module JsMapFacts.
Section Facts.
Context {V : Type}.
Implicit Types (m : JsMap.t V) (k : string) (v : V).

Lemma get_set_eq m k v : JsMap.get k (JsMap.set k v m) = Some v.
Proof.
  induction m as [|[k' v'] m IH]; simpl.
  - now rewrite String.eqb_refl.
  - destruct (String.eqb k k') eqn:E; simpl.
    + now rewrite String.eqb_refl.
    + now rewrite E.
Qed.

Lemma get_set_ne m k k' v :
  k <> k' -> JsMap.get k' (JsMap.set k v m) = JsMap.get k' m.
Proof.
  intros Hne. induction m as [|[k1 v1] m IH]; simpl.
  - apply not_eq_sym in Hne.
    apply String.eqb_neq in Hne. now rewrite Hne.
  - destruct (String.eqb_spec k k1) as [->|Hk]; simpl.
    + destruct (String.eqb_spec k' k1) as [->|]; congruence.
    + now rewrite IH.
Qed.

Lemma in_keys_set m k k' v :
  In k' (JsMap.keys (JsMap.set k v m)) <-> k' = k \/ In k' (JsMap.keys m).
Proof.
  induction m as [|[k1 v1] m IH]; simpl.
  - intuition.
  - destruct (String.eqb_spec k k1) as [->|Hk]; simpl.
    + intuition.
    + rewrite IH. intuition.
Qed.

Lemma NoDup_keys_set m k v :
  NoDup (JsMap.keys m) -> NoDup (JsMap.keys (JsMap.set k v m)).
Proof.
  induction m as [|[k1 v1] m IH]; simpl; intros Hnd.
  - constructor; [intros []|constructor].
  - inversion Hnd as [|? ? Hnotin Hnd']; subst.
    destruct (String.eqb_spec k k1) as [->|Hk]; simpl.
    + now constructor.
    + constructor; [|auto].
      rewrite in_keys_set. intros [Heq|Hin]; congruence.
Qed.

Lemma get_Some_In m k v : JsMap.get k m = Some v -> In (k, v) m.
Proof.
  induction m as [|[k1 v1] m IH]; simpl; [discriminate|].
  destruct (String.eqb_spec k k1) as [->|Hk].
  - intros [= ->]. now left.
  - intros H. right. auto.
Qed.

Lemma In_get_Some m k v :
  NoDup (JsMap.keys m) -> In (k, v) m -> JsMap.get k m = Some v.
Proof.
  induction m as [|[k1 v1] m IH]; simpl; [intros _ []|].
  intros Hnd [Heq|Hin].
  - injection Heq as -> ->. now rewrite String.eqb_refl.
  - inversion Hnd as [|? ? Hnotin Hnd']; subst.
    destruct (String.eqb_spec k k1) as [->|Hk]; [|auto].
    exfalso. apply Hnotin.
    change k1 with (fst (k1, v)). now apply in_map.
Qed.

Lemma In_values m v :
  In v (JsMap.values m) -> exists k, In (k, v) m.
Proof.
  unfold JsMap.values. rewrite in_map_iff.
  intros [[k v'] [Heq Hin]]. simpl in Heq. subst. eauto.
Qed.
End Facts.
End JsMapFacts.

(** ** The keep-the-cheapest loop *)

Section CheapestFacts.
Context {A : Type}.
Variable key : A -> string.
Variable price : A -> Q.

Lemma first_cheapest_In l v : first_cheapest key price l v -> In v l.
Proof.
  intros (l1 & l2 & -> & _). apply in_or_app. right. now left.
Qed.

Lemma first_cheapest_min l v f :
  first_cheapest key price l v -> In f l -> key f = key v ->
  (price v <= price f)%Q.
Proof.
  intros (l1 & l2 & -> & Hbefore & Hafter) Hin Hkey.
  apply in_app_or in Hin. destruct Hin as [Hin|[->|Hin]].
  - apply Qlt_le_weak. auto.
  - apply Qle_refl.
  - auto.
Qed.

Lemma first_cheapest_snoc l v f :
  first_cheapest key price l v ->
  (key f = key v -> (price v <= price f)%Q) ->
  first_cheapest key price (l ++ [f]) v.
Proof.
  intros (l1 & l2 & -> & Hbefore & Hafter) Hf.
  exists l1, (l2 ++ [f]). split; [|split]; auto.
  - now rewrite <- app_assoc.
  - intros g Hin Hkey. apply in_app_or in Hin.
    destruct Hin as [Hin|[->|[]]]; auto.
Qed.

Lemma first_cheapest_last l f :
  (forall g, In g l -> key g = key f -> (price f < price g)%Q) ->
  first_cheapest key price (l ++ [f]) f.
Proof.
  intros H. exists l, []. split; [reflexivity|]. split; [exact H|].
  intros g [].
Qed.

Lemma cheapest_inv_set l m f :
  cheapest_inv key price l m ->
  (forall g, In g l -> key g = key f -> (price f < price g)%Q) ->
  cheapest_inv key price (l ++ [f]) (JsMap.set (key f) f m).
Proof.
  intros [Hnd Hval Hcov] Hf. split.
  - now apply JsMapFacts.NoDup_keys_set.
  - intros k v Hget.
    destruct (string_dec (key f) k) as [<-|Hne].
    + rewrite JsMapFacts.get_set_eq in Hget. injection Hget as <-.
      split; [reflexivity|]. now apply first_cheapest_last.
    + rewrite JsMapFacts.get_set_ne in Hget by assumption.
      destruct (Hval _ _ Hget) as [Hk Hfc]. split; [assumption|].
      apply first_cheapest_snoc; [assumption|]. congruence.
  - intros g Hin.
    destruct (string_dec (key f) (key g)) as [<-|Hne].
    + rewrite JsMapFacts.get_set_eq. discriminate.
    + rewrite JsMapFacts.get_set_ne by assumption.
      apply in_app_or in Hin. destruct Hin as [Hin|[->|[]]]; [auto|].
      congruence.
Qed.

Lemma cheapest_inv_step l m f :
  cheapest_inv key price l m ->
  cheapest_inv key price (l ++ [f]) (cheapest_step key price m f).
Proof.
  intros Hinv. unfold cheapest_step.
  destruct (JsMap.get (key f) m) as [existing|] eqn:Hget.
  - destruct (inv_value Hinv _ _ Hget) as [Hk Hfc].
    destruct (Qltb (price f) (price existing)) eqn:Hlt.
    + apply cheapest_inv_set; [assumption|].
      intros g Hin Hkey. apply Qltb_true in Hlt.
      eapply Qlt_le_trans; [exact Hlt|].
      apply (first_cheapest_min _ _ _ Hfc Hin). congruence.
    + apply Qltb_false in Hlt.
      destruct Hinv as [Hnd Hval Hcov]. split; [assumption| |].
      * intros k v Hget'. destruct (Hval _ _ Hget') as [Hk' Hfc'].
        split; [assumption|].
        apply first_cheapest_snoc; [assumption|].
        intros Hkey.
        assert (v = existing) as -> by congruence. assumption.
      * intros g Hin. apply in_app_or in Hin.
        destruct Hin as [Hin|[->|[]]]; [auto|congruence].
  - apply cheapest_inv_set; [assumption|].
    intros g Hin Hkey. exfalso.
    apply (inv_cover Hinv _ Hin). congruence.
Qed.

Lemma cheapest_inv_loop l : forall l0 m,
  cheapest_inv key price l0 m ->
  cheapest_inv key price (l0 ++ l) (cheapest_loop key price l m).
Proof.
  induction l as [|f l IH]; intros l0 m Hinv; simpl.
  - now rewrite app_nil_r.
  - change (l0 ++ f :: l) with (l0 ++ [f] ++ l).
    rewrite app_assoc. apply IH. now apply cheapest_inv_step.
Qed.

Lemma cheapest_inv_empty : cheapest_inv key price [] JsMap.empty.
Proof.
  split.
  - constructor.
  - intros k v H. discriminate H.
  - intros f [].
Qed.

Lemma cheapest_inv_final l :
  cheapest_inv key price l (cheapest_loop key price l JsMap.empty).
Proof.
  apply (cheapest_inv_loop l [] JsMap.empty cheapest_inv_empty).
Qed.

(** Every kept element sits under its own key. *)
Lemma cheapest_keys l :
  List.map key (cheapest_by_key key price l)
  = JsMap.keys (cheapest_loop key price l JsMap.empty).
Proof.
  pose proof (cheapest_inv_final l) as Hinv.
  unfold cheapest_by_key, JsMap.values, JsMap.keys.
  rewrite map_map. apply map_ext_in.
  intros [k v] Hin. simpl.
  apply (JsMapFacts.In_get_Some _ _ _ (inv_nodup Hinv)) in Hin.
  now destruct (inv_value Hinv _ _ Hin).
Qed.

Lemma cheapest_by_key_NoDup l :
  NoDup (List.map key (cheapest_by_key key price l)).
Proof.
  rewrite cheapest_keys. apply (inv_nodup (cheapest_inv_final l)).
Qed.

Lemma cheapest_by_key_first l v :
  In v (cheapest_by_key key price l) -> first_cheapest key price l v.
Proof.
  intros Hin. pose proof (cheapest_inv_final l) as Hinv.
  apply JsMapFacts.In_values in Hin. destruct Hin as [k Hin].
  apply (JsMapFacts.In_get_Some _ _ _ (inv_nodup Hinv)) in Hin.
  now destruct (inv_value Hinv _ _ Hin).
Qed.

Lemma cheapest_by_key_cover l f :
  In f l ->
  exists v, In v (cheapest_by_key key price l) /\
            key v = key f /\ (price v <= price f)%Q.
Proof.
  intros Hin. pose proof (cheapest_inv_final l) as Hinv.
  destruct (JsMap.get (key f) (cheapest_loop key price l JsMap.empty))
    as [v|] eqn:Hget.
  - destruct (inv_value Hinv _ _ Hget) as [Hk Hfc].
    exists v. split; [|split; [assumption|]].
    + apply JsMapFacts.get_Some_In in Hget.
      unfold cheapest_by_key, JsMap.values.
      change v with (snd (key f, v)). now apply in_map.
    + apply (first_cheapest_min _ _ _ Hfc Hin). congruence.
  - exfalso. now apply (inv_cover Hinv _ Hin).
Qed.
End CheapestFacts.

(** ** Lists *)

Lemma NoDup_map_coarser {A B C : Type} (f : A -> B) (g : A -> C) (l : list A) :
  (forall x y, g x = g y -> f x = f y) ->
  NoDup (List.map f l) -> NoDup (List.map g l).
Proof.
  intros Hfg. induction l as [|x l IH]; simpl; intros Hnd.
  - constructor.
  - inversion Hnd as [|? ? Hnotin Hnd']; subst. constructor; [|auto].
    intros Hin. apply Hnotin.
    apply in_map_iff in Hin. destruct Hin as (y & Hy & Hin).
    apply in_map_iff. exists y. split; [now apply Hfg|assumption].
Qed.

Lemma StronglySorted_app_inv {A : Type} (R : A -> A -> Prop) (l1 l2 : list A) :
  StronglySorted R (l1 ++ l2) ->
  StronglySorted R l1 /\ (forall a b, In a l1 -> In b l2 -> R a b).
Proof.
  induction l1 as [|x l1 IH]; simpl; intros Hs.
  - split; [constructor|intros a b []].
  - inversion Hs as [|? ? Hs' Hall]; subst.
    destruct (IH Hs') as [Hs1 Hcross].
    rewrite Forall_forall in Hall. split.
    + constructor; [assumption|].
      apply Forall_forall. intros y Hy. apply Hall.
      apply in_or_app. now left.
    + intros a b [<-|Ha] Hb.
      * apply Hall. apply in_or_app. now right.
      * now apply Hcross.
Qed.

(** ** The sort *)

Section SortFacts.
Context {A : Type}.
Variable cmp : A -> A -> Q.

Lemma sort_insert_perm x l : Permutation (x :: l) (sort_insert cmp x l).
Proof.
  induction l as [|y t IH]; simpl.
  - apply Permutation_refl.
  - destruct (Qle_bool (cmp x y) 0).
    + apply Permutation_refl.
    + eapply perm_trans; [apply perm_swap|]. now apply perm_skip.
Qed.

Lemma js_sort_perm l : Permutation l (js_sort cmp l).
Proof.
  induction l as [|x l IH]; simpl.
  - constructor.
  - eapply perm_trans; [|apply sort_insert_perm]. now apply perm_skip.
Qed.

Lemma js_sort_In l x : In x (js_sort cmp l) <-> In x l.
Proof.
  split; apply Permutation_in;
    [apply Permutation_sym|]; apply js_sort_perm.
Qed.

Lemma js_sort_NoDup_map {B : Type} (f : A -> B) l :
  NoDup (List.map f l) -> NoDup (List.map f (js_sort cmp l)).
Proof.
  apply Permutation_NoDup, Permutation_map, js_sort_perm.
Qed.

(** Sortedness, for any transitive order the comparator decides. *)
Section Sorted.
Variable le : A -> A -> Prop.
Hypothesis le_trans : forall a b c, le a b -> le b c -> le a c.
Hypothesis cmp_le : forall a b, (cmp a b <= 0)%Q -> le a b.
Hypothesis cmp_gt : forall a b, ~ (cmp a b <= 0)%Q -> le b a.

Lemma sort_insert_sorted x l :
  StronglySorted le l -> StronglySorted le (sort_insert cmp x l).
Proof.
  induction l as [|y t IH]; simpl; intros Hs.
  - constructor; [constructor|constructor].
  - inversion Hs as [|? ? Hs' Hall]; subst.
    destruct (Qle_bool (cmp x y) 0) eqn:E.
    + apply Qle_bool_iff in E. apply cmp_le in E.
      constructor; [assumption|]. constructor; [assumption|].
      eapply Forall_impl; [|exact Hall]. intros z Hz. eauto.
    + assert (le y x) as Hyx.
      { apply cmp_gt. rewrite <- Qle_bool_iff. congruence. }
      constructor; [auto|].
      eapply Permutation_Forall; [apply sort_insert_perm|].
      now constructor.
Qed.

Lemma js_sort_sorted l : StronglySorted le (js_sort cmp l).
Proof.
  induction l as [|x l IH]; simpl.
  - constructor.
  - now apply sort_insert_sorted.
Qed.
End Sorted.

(** Stability: elements that the comparator never separates keep their
    relative order. *)
Section Stable.
Variable P : A -> bool.
Hypothesis P_tied :
    forall a b, P a = true -> P b = true -> (cmp a b <= 0)%Q.

Lemma sort_insert_filter x l :
  List.filter P (sort_insert cmp x l) = List.filter P (x :: l).
Proof.
  induction l as [|y t IH]; [reflexivity|].
  cbn [sort_insert].
  destruct (Qle_bool (cmp x y) 0) eqn:E; [reflexivity|].
  cbn [List.filter] in *. rewrite IH.
  destruct (P x) eqn:Hx, (P y) eqn:Hy; try reflexivity.
  exfalso. apply (P_tied _ _ Hx) in Hy.
  apply Qle_bool_iff in Hy. congruence.
Qed.

Lemma js_sort_filter l :
  List.filter P (js_sort cmp l) = List.filter P l.
Proof.
  induction l as [|x l IH]; [reflexivity|].
  cbn [js_sort fold_right]. rewrite sort_insert_filter.
  cbn [List.filter]. fold (js_sort cmp l). now rewrite IH.
Qed.
End Stable.
End SortFacts.

(** ** Search: dedupe and order *)

Lemma composite_key_flight_key f g :
  composite_key f = composite_key g -> flight_key f = flight_key g.
Proof.
  unfold composite_key, flight_key. intros H.
  injection H as -> -> -> -> ->. reflexivity.
Qed.

Lemma inject_Z_nonpos (z : Z) : (inject_Z z <= 0)%Q <-> (z <= 0)%Z.
Proof. change 0%Q with (inject_Z 0). now rewrite <- Zle_Qle. Qed.

Lemma compare_flights_le a b :
  (compare_flights a b <= 0)%Q -> price_then_duration a b.
Proof.
  unfold compare_flights, price_then_duration.
  destruct (Qeq_bool (NormalizedFlight.price a) (NormalizedFlight.price b))
    eqn:E; cbn [negb]; intros H.
  - apply Qeq_bool_iff in E. right. split; [assumption|].
    apply -> inject_Z_nonpos in H. lia.
  - apply Qeq_bool_neq in E. left.
    apply Qle_lteq in H. destruct H as [H|H].
    + lra.
    + exfalso. apply E. lra.
Qed.

Lemma compare_flights_gt a b :
  ~ (compare_flights a b <= 0)%Q -> price_then_duration b a.
Proof.
  unfold compare_flights, price_then_duration.
  destruct (Qeq_bool (NormalizedFlight.price a) (NormalizedFlight.price b))
    eqn:E; cbn [negb]; intros H.
  - apply Qeq_bool_iff in E. right. split; [now symmetry|].
    rewrite inject_Z_nonpos in H. lia.
  - left. apply Qnot_le_lt in H. lra.
Qed.

Lemma price_then_duration_trans a b c :
  price_then_duration a b -> price_then_duration b c ->
  price_then_duration a c.
Proof.
  unfold price_then_duration.
  intros [Hab|[Hab Dab]] [Hbc|[Hbc Dbc]].
  - left. lra.
  - left. lra.
  - left. lra.
  - right. split; [lra|lia].
Qed.

Lemma tied_compare p d a b :
  tied p d a = true -> tied p d b = true -> (compare_flights a b <= 0)%Q.
Proof.
  unfold tied, compare_flights. intros Ha Hb.
  apply andb_true_iff in Ha. destruct Ha as [Pa Da].
  apply andb_true_iff in Hb. destruct Hb as [Pb Db].
  apply Qeq_bool_iff in Pa, Pb. apply Z.eqb_eq in Da, Db.
  assert (Qeq_bool (NormalizedFlight.price a) (NormalizedFlight.price b)
          = true) as ->.
  { apply Qeq_bool_iff. lra. }
  cbn [negb]. apply <- inject_Z_nonpos. lia.
Qed.

(** C1: the list returned by search holds at most one offer for each
    composite key (airline code, flight number, departure day, origin,
    destination); every returned offer is an input offer whose price is
    minimal within its group, and it is the first of the group, in flatten
    order, to have that price.  Nothing is lost either: each input offer is
    answered by a returned offer under its joined key, at no higher price. *)
Theorem search_dedupe_unique_min (flights : list NormalizedFlight.t) :
  let out := dedupe_and_sort flights in
  NoDup (List.map composite_key out) /\
  (forall o, In o out ->
     In o flights /\
     forall f, In f flights -> composite_key f = composite_key o ->
               (NormalizedFlight.price o <= NormalizedFlight.price f)%Q) /\
  (forall o, In o out ->
     exists before after,
       flights = before ++ o :: after /\
       forall f, In f before -> composite_key f = composite_key o ->
                 (NormalizedFlight.price o < NormalizedFlight.price f)%Q) /\
  (forall f, In f flights ->
     exists o, In o out /\ flight_key o = flight_key f /\
               (NormalizedFlight.price o <= NormalizedFlight.price f)%Q).
Proof.
  unfold dedupe_and_sort, deduplicate. cbn zeta.
  split; [|split; [|split]].
  - apply js_sort_NoDup_map.
    apply (NoDup_map_coarser flight_key composite_key).
    + intros x y. apply composite_key_flight_key.
    + apply cheapest_by_key_NoDup.
  - intros o Hin. apply js_sort_In in Hin.
    apply cheapest_by_key_first in Hin. split.
    + eapply first_cheapest_In; eassumption.
    + intros f Hf Hkey.
      apply (first_cheapest_min _ _ _ _ _ Hin Hf).
      now apply composite_key_flight_key.
  - intros o Hin. apply js_sort_In in Hin.
    apply cheapest_by_key_first in Hin.
    destruct Hin as (l1 & l2 & Heq & Hbefore & _).
    exists l1, l2. split; [assumption|].
    intros f Hf Hkey. apply Hbefore; [assumption|].
    now apply composite_key_flight_key.
  - intros f Hf.
    destruct (cheapest_by_key_cover flight_key NormalizedFlight.price _ _ Hf)
      as (v & Hv & Hk & Hp).
    exists v. split; [|split; assumption]. now apply js_sort_In.
Qed.

(** C2: the list returned by search is in non-decreasing order of price,
    offers of one price are in non-decreasing order of duration, and offers
    that agree on both stand in the order dedupe left them in. *)
Theorem search_sorted_stable (flights : list NormalizedFlight.t) :
  let out := dedupe_and_sort flights in
  StronglySorted price_then_duration out /\
  forall p d,
    List.filter (tied p d) out = List.filter (tied p d) (deduplicate flights).
Proof.
  unfold dedupe_and_sort. cbn zeta. split.
  - apply js_sort_sorted.
    + apply price_then_duration_trans.
    + apply compare_flights_le.
    + apply compare_flights_gt.
  - intros p d. apply js_sort_filter. apply tied_compare.
Qed.

(** C9: the joined key is not injective on the five fields.  There is an
    input with two offers whose composite keys differ and whose joined
    strings are equal, and dedupe drops one of the two flights. *)
Theorem flight_key_collision :
  exists (flights : list NormalizedFlight.t) (a b : NormalizedFlight.t),
    In a flights /\ In b flights /\
    composite_key a <> composite_key b /\
    flight_key a = flight_key b /\
    deduplicate flights = [a] /\
    ~ In b (dedupe_and_sort flights).
Proof.
  exists [ryanair_offer; other_offer], ryanair_offer, other_offer.
  split; [now left|]. split; [right; now left|].
  split; [discriminate|]. split; [reflexivity|].
  split; [reflexivity|].
  intros [H|[]]. discriminate H.
Qed.

(** ** Explore: dedupe, order, limit *)

Lemma js_slice0_firstn {A : Type} (l : list A) (n : Z) :
  (0 <= n)%Z -> js_slice0 l (Some n) = firstn (Z.to_nat n) l.
Proof.
  intros Hn. unfold js_slice0.
  destruct (Z.ltb_spec n 0); [lia|reflexivity].
Qed.

Lemma skipn_In_length {A : Type} (k : nat) (l : list A) (x : A) :
  In x (skipn k l) -> List.length (firstn k l) = k.
Proof.
  intros Hin. rewrite length_firstn.
  destruct (Nat.le_gt_cases (List.length l) k) as [Hle|Hgt]; [|lia].
  rewrite skipn_all2 in Hin by assumption. destruct Hin.
Qed.

Lemma dedupe_sort_limit_facts (dests : list ExploreResult.t) (limit : Z) :
  (0 <= limit)%Z ->
  let out := dedupe_sort_limit dests (Some limit) in
  (Z.of_nat (List.length out) <= limit)%Z /\
  NoDup (List.map ExploreResult.destination out) /\
  (forall o, In o out ->
     In o dests /\
     forall d, In d dests ->
       ExploreResult.destination d = ExploreResult.destination o ->
       price_le o d) /\
  StronglySorted price_le out /\
  (forall d, In d dests ->
     (exists o, In o out /\
        ExploreResult.destination o = ExploreResult.destination d /\
        price_le o d) \/
     (Z.of_nat (List.length out) = limit /\
      forall o, In o out -> price_le o d)).
Proof.
  intros Hlimit. unfold dedupe_sort_limit. cbn zeta.
  rewrite js_slice0_firstn by assumption.
  set (byDest := cheapest_by_key ExploreResult.destination
                   ExploreResult.price dests).
  set (sorted := js_sort compare_destinations byDest).
  set (k := Z.to_nat limit).
  assert (Hsplit : sorted = firstn k sorted ++ skipn k sorted)
    by (symmetry; apply firstn_skipn).
  assert (Hsorted : StronglySorted price_le sorted).
  { apply js_sort_sorted.
    - intros a b c. unfold price_le. apply Qle_trans.
    - intros a b. unfold compare_destinations, price_le. lra.
    - intros a b H. apply Qnot_le_lt in H.
      unfold compare_destinations, price_le in *. lra. }
  assert (Hnodup : NoDup (List.map ExploreResult.destination sorted)).
  { apply js_sort_NoDup_map, cheapest_by_key_NoDup. }
  rewrite Hsplit in Hsorted, Hnodup.
  apply StronglySorted_app_inv in Hsorted. destruct Hsorted as [Hs1 Hcross].
  assert (Hout : forall o, In o (firstn k sorted) -> In o byDest).
  { intros o Ho. apply (js_sort_In compare_destinations).
    fold sorted. rewrite Hsplit. apply in_or_app. now left. }
  split; [|split; [|split; [|split]]].
  - rewrite length_firstn. lia.
  - rewrite map_app in Hnodup. now apply NoDup_app_remove_r in Hnodup.
  - intros o Ho. apply Hout in Ho.
    apply cheapest_by_key_first in Ho. split.
    + eapply first_cheapest_In; eassumption.
    + intros d Hd Hkey. unfold price_le.
      now apply (first_cheapest_min _ _ _ _ _ Ho Hd).
  - assumption.
  - intros d Hd.
    destruct (cheapest_by_key_cover ExploreResult.destination
                ExploreResult.price _ _ Hd) as (v & Hv & Hk & Hp).
    fold byDest in Hv.
    apply (js_sort_In compare_destinations) in Hv. fold sorted in Hv.
    rewrite Hsplit in Hv. apply in_app_or in Hv. destruct Hv as [Hv|Hv].
    + left. exists v. split; [assumption|]. split; assumption.
    + right. split.
      * rewrite (skipn_In_length _ _ _ Hv). unfold k. lia.
      * intros o Ho. unfold price_le.
        eapply Qle_trans; [|exact Hp]. now apply Hcross.
Qed.

(** ** The cache *)

Module TTLCacheFacts.
Section Facts.
Context {V : Type}.
Implicit Types (c : TTLCache.t V) (key : string) (now : Z) (v : V).

(** [get] answers with the stored value exactly when an entry is there
    and the clock has not passed its expiry. *)
Lemma get_Some_iff c now key v :
  fst (TTLCache.get now key c) = Some v <->
  exists entry, TTLCache.store c !! key = Some entry /\
                TTLCache.value entry = v /\
                (now <= TTLCache.expires_at entry)%Z.
Proof.
  unfold TTLCache.get.
  destruct (TTLCache.store c !! key) as [entry|] eqn:Hlook.
  - destruct (Z.gtb_spec now (TTLCache.expires_at entry)); simpl; split.
    + discriminate.
    + intros (e & [= <-] & _ & Hle). lia.
    + intros [= <-]. exists entry.
      split; [reflexivity|]. split; [reflexivity|lia].
    + intros (e & [= <-] & <- & _). reflexivity.
  - simpl. split; [discriminate|]. intros (e & He & _). discriminate.
Qed.

Lemma get_None_iff c now key :
  fst (TTLCache.get now key c) = None <->
  ~ exists entry, TTLCache.store c !! key = Some entry /\
                  (now <= TTLCache.expires_at entry)%Z.
Proof.
  split.
  - intros Hnone (entry & Hlook & Hle).
    assert (fst (TTLCache.get now key c) = Some (TTLCache.value entry)) as H.
    { apply get_Some_iff. now exists entry. }
    congruence.
  - intros Hno.
    destruct (fst (TTLCache.get now key c)) as [v|] eqn:E; [|reflexivity].
    apply get_Some_iff in E. destruct E as (entry & Hlook & _ & Hle).
    exfalso. apply Hno. now exists entry.
Qed.

(** A hit leaves the cache as it was. *)
Lemma get_hit c now key entry :
  TTLCache.store c !! key = Some entry ->
  (now <= TTLCache.expires_at entry)%Z ->
  TTLCache.get now key c = (Some (TTLCache.value entry), c).
Proof.
  intros Hlook Hle. unfold TTLCache.get. rewrite Hlook.
  destruct (Z.gtb_spec now (TTLCache.expires_at entry)); [lia|reflexivity].
Qed.

(** A stale entry is deleted by the read that finds it. *)
Lemma get_stale c now key entry :
  TTLCache.store c !! key = Some entry ->
  (TTLCache.expires_at entry < now)%Z ->
  fst (TTLCache.get now key c) = None /\
  TTLCache.store (snd (TTLCache.get now key c)) !! key = None /\
  TTLCache.default_ttl_ms (snd (TTLCache.get now key c))
  = TTLCache.default_ttl_ms c.
Proof.
  intros Hlook Hlt. unfold TTLCache.get. rewrite Hlook.
  destruct (Z.gtb_spec now (TTLCache.expires_at entry)); [|lia].
  simpl. repeat split. apply lookup_delete_eq.
Qed.

Lemma get_ttl c now key :
  TTLCache.default_ttl_ms (snd (TTLCache.get now key c))
  = TTLCache.default_ttl_ms c.
Proof.
  unfold TTLCache.get.
  destruct (TTLCache.store c !! key) as [entry|]; [|reflexivity].
  now destruct (now >? TTLCache.expires_at entry)%Z.
Qed.

Lemma lookup_set c now key v :
  TTLCache.store (TTLCache.set now key v None c) !! key
  = Some {| TTLCache.value := v;
            TTLCache.expires_at := now + TTLCache.default_ttl_ms c |}.
Proof. unfold TTLCache.set. simpl. apply lookup_insert_eq. Qed.
End Facts.
End TTLCacheFacts.

(** ** The aggregator *)

Lemma collect_from active params : forall acc,
  fold_left FlightAggregator.collect_step
    (combine active
       (List.map (fun p => IFlightProvider.searchFlights p params) active))
    acc
  = (fst acc ++ successful_offers active params,
     snd acc ++ failure_reports active params).
Proof.
  induction active as [|p active IH]; intros [fs es]; simpl.
  - now rewrite !app_nil_r.
  - rewrite IH. unfold FlightAggregator.collect_step. simpl.
    destruct (IFlightProvider.searchFlights p params); simpl;
      now rewrite <- ?app_assoc.
Qed.

Lemma collect_spec active params :
  FlightAggregator.collect active
    (List.map (fun p => IFlightProvider.searchFlights p params) active)
  = (successful_offers active params, failure_reports active params).
Proof. unfold FlightAggregator.collect. now rewrite collect_from. Qed.

Lemma collect_destinations_from results : forall acc,
  fold_left
    (fun acc (r : Settled (list ExploreResult.t)) =>
       match r with fulfilled v => acc ++ v | rejected _ => acc end)
    results acc
  = acc ++ flat_map (fun r => match r with
                              | fulfilled v => v
                              | rejected _ => []
                              end) results.
Proof.
  induction results as [|r results IH]; intros acc; simpl.
  - now rewrite app_nil_r.
  - rewrite IH. destruct r; simpl; now rewrite <- ?app_assoc.
Qed.

Lemma collect_destinations_spec active params :
  FlightAggregator.collect_destinations
    (List.map snd (FlightAggregator.explore_calls active params))
  = successful_destinations active params.
Proof.
  unfold FlightAggregator.collect_destinations.
  rewrite collect_destinations_from. simpl.
  induction active as [|p active IH]; simpl; [reflexivity|].
  destruct (IFlightProvider.exploreDestinations p) as [f|]; simpl.
  - now rewrite IH.
  - exact IH.
Qed.

(** What a search computes when the cache does not answer. *)
Lemma searchFlights_miss agg now_get now_set params sourcesFilter :
  let key := FlightAggregator.cache_key "search" params sourcesFilter in
  let active := FlightAggregator.getActiveProviders agg sourcesFilter in
  let sorted := dedupe_and_sort (successful_offers active params) in
  fst (TTLCache.get now_get key (FlightAggregator.cache agg)) = None ->
  FlightAggregator.searchFlights agg now_get now_set params sourcesFilter
  = {| FlightAggregator.returned := sorted;
       FlightAggregator.after :=
         {| FlightAggregator.providers := FlightAggregator.providers agg;
            FlightAggregator.cache :=
              TTLCache.set now_set key (FlightAggregator.Flights sorted) None
                (snd (TTLCache.get now_get key (FlightAggregator.cache agg)))
         |};
       FlightAggregator.invoked := List.map IFlightProvider.name active;
       FlightAggregator.errors := failure_reports active params |}.
Proof.
  cbn zeta. intros Hmiss. unfold FlightAggregator.searchFlights.
  destruct (TTLCache.get now_get _ (FlightAggregator.cache agg))
    as [cached cache1].
  simpl in Hmiss. subst cached. rewrite collect_spec. reflexivity.
Qed.

(** What a search does when the cache answers. *)
Lemma searchFlights_hit agg now_get now_set params sourcesFilter entry :
  let key := FlightAggregator.cache_key "search" params sourcesFilter in
  TTLCache.store (FlightAggregator.cache agg) !! key = Some entry ->
  (now_get <= TTLCache.expires_at entry)%Z ->
  FlightAggregator.searchFlights agg now_get now_set params sourcesFilter
  = {| FlightAggregator.returned :=
         FlightAggregator.as_flights (TTLCache.value entry);
       FlightAggregator.after :=
         {| FlightAggregator.providers := FlightAggregator.providers agg;
            FlightAggregator.cache := FlightAggregator.cache agg |};
       FlightAggregator.invoked := [];
       FlightAggregator.errors := [] |}.
Proof.
  cbn zeta. intros Hlook Hle. unfold FlightAggregator.searchFlights.
  now rewrite (TTLCacheFacts.get_hit _ _ _ _ Hlook Hle).
Qed.




Lemma search_leaves_entry agg t1 t1' params sourcesFilter :
  let key := FlightAggregator.cache_key "search" params sourcesFilter in
  let run1 :=
    FlightAggregator.searchFlights agg t1 t1' params sourcesFilter in
  exists entry,
    TTLCache.store (FlightAggregator.cache (FlightAggregator.after run1))
      !! key = Some entry /\
    FlightAggregator.as_flights (TTLCache.value entry)
    = FlightAggregator.returned run1 /\
    (fst (TTLCache.get t1 key (FlightAggregator.cache agg)) = None ->
     TTLCache.expires_at entry
     = (t1' + TTLCache.default_ttl_ms (FlightAggregator.cache agg))%Z).
Proof.
  cbn zeta.
  destruct (fst (TTLCache.get t1
                   (FlightAggregator.cache_key "search" params sourcesFilter)
                   (FlightAggregator.cache agg))) as [v|] eqn:Hget.
  - apply TTLCacheFacts.get_Some_iff in Hget.
    destruct Hget as (entry & Hlook & <- & Hle).
    rewrite (searchFlights_hit _ _ _ _ _ _ Hlook Hle). simpl.
    exists entry. split; [assumption|]. split; [reflexivity|discriminate].
  - rewrite (searchFlights_miss _ _ _ _ _ Hget). simpl.
    eexists. split; [apply TTLCacheFacts.lookup_set|].
    split; [reflexivity|]. intros _. simpl.
    now rewrite TTLCacheFacts.get_ttl.
Qed.

(** C4: after a search, the cache holds the returned array under the
    request's key, with an expiry that is the time of storing plus the TTL
    when the search had to compute.  A search for the unchanged request and
    filter no later than that expiry returns the same array, calls no
    provider and leaves the cache alone; a later one finds the entry stale,
    deletes it on the read, and computes afresh from the providers.  [get]
    answers with the stored value exactly when the entry is present and the
    clock is at most its expiry, and with nothing otherwise. *)
Theorem search_cache_reuse
    (agg : FlightAggregator.t) (t1 t1' : Z)
    (params : JsObject) (sourcesFilter : option (list string)) :
  let key := FlightAggregator.cache_key "search" params sourcesFilter in
  let run1 :=
    FlightAggregator.searchFlights agg t1 t1' params sourcesFilter in
  (exists entry,
     TTLCache.store (FlightAggregator.cache (FlightAggregator.after run1))
       !! key = Some entry /\
     FlightAggregator.as_flights (TTLCache.value entry)
     = FlightAggregator.returned run1 /\
     (fst (TTLCache.get t1 key (FlightAggregator.cache agg)) = None ->
      TTLCache.expires_at entry
      = (t1' + TTLCache.default_ttl_ms (FlightAggregator.cache agg))%Z) /\
     forall (providers2 : list IFlightProvider.t) (t2 t2' : Z),
       let agg2 :=
         {| FlightAggregator.providers := providers2;
            FlightAggregator.cache :=
              FlightAggregator.cache (FlightAggregator.after run1) |} in
       let run2 :=
         FlightAggregator.searchFlights agg2 t2 t2' params sourcesFilter in
       ((t2 <= TTLCache.expires_at entry)%Z ->
        FlightAggregator.returned run2 = FlightAggregator.returned run1 /\
        FlightAggregator.invoked run2 = [] /\
        FlightAggregator.cache (FlightAggregator.after run2)
        = FlightAggregator.cache (FlightAggregator.after run1)) /\
       ((TTLCache.expires_at entry < t2)%Z ->
        TTLCache.store
          (snd (TTLCache.get t2 key (FlightAggregator.cache agg2)))
          !! key = None /\
        FlightAggregator.returned run2
        = dedupe_and_sort
            (successful_offers
               (FlightAggregator.getActiveProviders agg2 sourcesFilter)
               params) /\
        FlightAggregator.invoked run2
        = List.map IFlightProvider.name
            (FlightAggregator.getActiveProviders agg2 sourcesFilter))) /\
  (forall (c : TTLCache.t FlightAggregator.CacheValue) now k v,
     fst (TTLCache.get now k c) = Some v <->
     exists entry, TTLCache.store c !! k = Some entry /\
                   TTLCache.value entry = v /\
                   (now <= TTLCache.expires_at entry)%Z) /\
  (forall (c : TTLCache.t FlightAggregator.CacheValue) now k,
     fst (TTLCache.get now k c) = None <->
     ~ exists entry, TTLCache.store c !! k = Some entry /\
                     (now <= TTLCache.expires_at entry)%Z).
Proof.
  cbn zeta. split; [|split].
  - destruct (search_leaves_entry agg t1 t1' params sourcesFilter)
      as (entry & Hlook & Hval & Hexp).
    exists entry. split; [assumption|]. split; [assumption|].
    split; [assumption|].
    intros providers2 t2 t2'. split.
    + intros Hle.
      rewrite (searchFlights_hit _ t2 t2' params sourcesFilter entry);
        [|exact Hlook|exact Hle].
      simpl. auto.
    + intros Hlt.
      set (agg2 := {| FlightAggregator.providers := providers2;
                      FlightAggregator.cache := _ |}).
      destruct (TTLCacheFacts.get_stale (FlightAggregator.cache agg2) t2 _
                  entry Hlook Hlt) as (Hnone & Hgone & _).
      split; [exact Hgone|].
      rewrite (searchFlights_miss agg2 t2 t2' params sourcesFilter Hnone).
      simpl. auto.
  - intros c now k v. apply TTLCacheFacts.get_Some_iff.
  - intros c now k. apply TTLCacheFacts.get_None_iff.
Qed.


(** ** The cache key *)

Lemma stringify_properties_defined (o : JsObject) :
  Json.stringify_properties (defined_properties o)
  = Json.stringify_properties o.
Proof.
  induction o as [|[k v] o IH]; [reflexivity|].
  destruct v; simpl; unfold Json.stringify_property; simpl;
    now rewrite ?IH.
Qed.

(** C5, as stated, fails: the key follows the insertion order of the
    request's fields.  The same four fields with the same values, listed
    in two orders, get two different keys. *)
Lemma buildKey_order_sensitive :
  Permutation request_origin_first request_destination_first /\
  NoDup (List.map fst request_origin_first) /\
  (forall field : string,
     obj_get field request_origin_first
     = obj_get field request_destination_first) /\
  FlightAggregator.cache_key "search" request_origin_first None
  <> FlightAggregator.cache_key "search" request_destination_first None.
Proof.
  split; [apply perm_swap|]. split.
  - repeat constructor; simpl; intuition discriminate.
  - split.
    + intros field. simpl.
      destruct (String.eqb_spec field "origin") as [E1|E1];
        destruct (String.eqb_spec field "destination") as [E2|E2];
        try reflexivity; congruence.
    + vm_compute. discriminate.
Qed.

(** C5, amended: the key is a function of the operation tag, the filter and
    the request's properties that are not [undefined], taken in insertion
    order.  Representations that agree on those get the same key. *)
Theorem buildKey_defined_properties
    (operation : string) (o1 o2 : JsObject)
    (sourcesFilter : option (list string)) :
  defined_properties o1 = defined_properties o2 ->
  FlightAggregator.cache_key operation o1 sourcesFilter
  = FlightAggregator.cache_key operation o2 sourcesFilter.
Proof.
  intros H. unfold FlightAggregator.cache_key, TTLCache.buildKey. simpl.
  now rewrite <- (stringify_properties_defined o1),
              <- (stringify_properties_defined o2), H.
Qed.

Lemma buildKey_defined_properties_witness :
  defined_properties request_of_search_tool
  = defined_properties request_of_compare_tool /\
  FlightAggregator.cache_key "search" request_of_search_tool None
  = FlightAggregator.cache_key "search" request_of_compare_tool None.
Proof.
  split; [reflexivity|].
  apply (buildKey_defined_properties "search" request_of_search_tool
           request_of_compare_tool None).
  reflexivity.
Defined.

(** ** The rate limiter *)

Module RateLimiterFacts.
Import RateLimiter.

Lemma refill_le_capacity now rl :
  (tokens (refill now rl) <= max_tokens rl)%Q.
Proof. unfold refill. simpl. apply Q.le_min_l. Qed.

Lemma run_segment_max_tokens rl s :
  max_tokens (run_segment rl s) = max_tokens rl.
Proof.
  destruct s as [now|now]; simpl; [|reflexivity].
  unfold acquire_enter.
  now destruct (Qle_bool 1 (tokens (refill now rl))).
Qed.

Lemma run_segment_le_capacity rl s :
  (tokens (run_segment rl s) <= max_tokens rl)%Q.
Proof.
  pose proof (refill_le_capacity) as Hr.
  destruct s as [now|now]; simpl.
  - unfold acquire_enter. specialize (Hr now rl).
    destruct (Qle_bool 1 (tokens (refill now rl))); simpl in *; lra.
  - unfold acquire_resume. specialize (Hr now rl). simpl in *. lra.
Qed.

Lemma run_segments_le_capacity ss : forall rl,
  (tokens rl <= max_tokens rl)%Q ->
  (tokens (run_segments rl ss) <= max_tokens rl)%Q /\
  max_tokens (run_segments rl ss) = max_tokens rl.
Proof.
  induction ss as [|s ss IH]; intros rl Hrl; simpl.
  - split; [assumption|reflexivity].
  - destruct (IH (run_segment rl s)) as [Ht Hm].
    + rewrite run_segment_max_tokens. apply run_segment_le_capacity.
    + rewrite run_segment_max_tokens in Ht, Hm. split; assumption.
Qed.

Lemma acquire_as_segments now later rl :
  acquire now later rl = run_segments rl [Enter now] \/
  acquire now later rl = run_segments rl [Enter now; Resume later].
Proof.
  unfold acquire, run_segments. simpl.
  destruct (acquire_enter now rl) as [[|w] rl']; simpl; auto.
Qed.
End RateLimiterFacts.

(** C7: a refill never leaves more than the capacity in the bucket, however
    long the bucket was idle; and from construction on, after every segment
    of every call of [acquire], overlapping or not, the token count is at
    most the capacity. *)
Theorem tokens_le_capacity (capacity rate : Q) (t0 : Z) :
  (forall now rl,
     (RateLimiter.tokens (RateLimiter.refill now rl)
      <= RateLimiter.max_tokens rl)%Q) /\
  (forall segments,
     (RateLimiter.tokens
        (RateLimiter.run_segments (RateLimiter.new capacity rate t0) segments)
      <= capacity)%Q) /\
  (forall calls,
     (RateLimiter.tokens
        (run_acquires (RateLimiter.new capacity rate t0) calls)
      <= capacity)%Q).
Proof.
  assert (Hseg : forall segments,
    (RateLimiter.tokens
       (RateLimiter.run_segments (RateLimiter.new capacity rate t0) segments)
     <= capacity)%Q).
  { intros segments.
    destruct (RateLimiterFacts.run_segments_le_capacity segments
                (RateLimiter.new capacity rate t0)) as [H _].
    - simpl. apply Qle_refl.
    - exact H. }
  split; [apply RateLimiterFacts.refill_le_capacity|]. split; [exact Hseg|].
  intros calls.
  assert (Hex : exists segments,
    run_acquires (RateLimiter.new capacity rate t0) calls
    = RateLimiter.run_segments (RateLimiter.new capacity rate t0) segments).
  { induction calls as [|c calls IH] using rev_ind.
    - exists []. reflexivity.
    - destruct IH as [segments IH]. unfold run_acquires in *.
      rewrite fold_left_app. simpl. rewrite IH.
      destruct (RateLimiterFacts.acquire_as_segments (fst c) (snd c)
                  (RateLimiter.run_segments
                     (RateLimiter.new capacity rate t0) segments))
        as [-> | ->].
      + exists (segments ++ [RateLimiter.Enter (fst c)]).
        unfold RateLimiter.run_segments. now rewrite fold_left_app.
      + exists (segments ++ [RateLimiter.Enter (fst c);
                             RateLimiter.Resume (snd c)]).
        unfold RateLimiter.run_segments. now rewrite fold_left_app. }
  destruct Hex as [segments ->]. apply Hseg.
Qed.

Module AcquireFacts.
Import RateLimiter.






End AcquireFacts.



Module BurstFacts.
Import RateLimiter.

Lemma refill_same_instant rl :
  (tokens rl <= max_tokens rl)%Q ->
  (tokens (refill (last_refill rl) rl) == tokens rl)%Q.
Proof.
  intros Hle. unfold refill. simpl. rewrite Z.sub_diag.
  assert (E : (tokens rl + inject_Z 0 / 1000 * refill_rate rl
               == tokens rl)%Q).
  { change (inject_Z 0) with 0%Q. field. }
  rewrite Q.min_r; [exact E|]. rewrite E. assumption.
Qed.

Lemma refill_at_last rl now :
  last_refill rl = now -> (tokens rl <= max_tokens rl)%Q ->
  (tokens (refill now rl) == tokens rl)%Q.
Proof. intros <-. apply refill_same_instant. Qed.

Lemma after_burst_S capacity rate t0 k :
  after_burst capacity rate t0 (S k)
  = run_segment (after_burst capacity rate t0 k) (Enter t0).
Proof.
  unfold after_burst, run_segments.
  change (repeat (Enter t0) (S k)) with (Enter t0 :: repeat (Enter t0) k).
  rewrite repeat_cons, fold_left_app. reflexivity.
Qed.

Lemma inject_Z_succ (k : nat) :
  (inject_Z (Z.of_nat (S k)) == inject_Z (Z.of_nat k) + 1)%Q.
Proof.
  rewrite Nat2Z.inj_succ. unfold Z.succ. rewrite inject_Z_plus.
  reflexivity.
Qed.

Section Burst.
Variables (capacity rate : Q) (t0 : Z).

Local Abbreviation state k := (after_burst capacity rate t0 k).

Lemma of_nat_nonneg (k : nat) : (0 <= inject_Z (Z.of_nat k))%Q.
Proof. change 0%Q with (inject_Z 0). rewrite <- Zle_Qle. lia. Qed.

Lemma refilled_tokens k :
  burst_inv capacity rate t0 k ->
  (tokens (refill t0 (state k))
   == capacity - inject_Z (Z.of_nat k))%Q.
Proof.
  intros (Ht & Hl & Hm).
  rewrite (refill_at_last _ _ Hl); [exact Ht|].
  rewrite Hm, Ht. pose proof (of_nat_nonneg k). lra.
Qed.

Lemma floor_room k :
  (Z.of_nat k < Qfloor capacity)%Z ->
  (1 <= capacity - inject_Z (Z.of_nat k))%Q.
Proof.
  intros Hk. pose proof (Qfloor_le capacity) as Hfloor.
  assert (inject_Z (Z.of_nat k + 1) <= inject_Z (Qfloor capacity))%Q
    as Hle by (rewrite <- Zle_Qle; lia).
  rewrite inject_Z_plus in Hle.
  change (inject_Z 1) with 1%Q in Hle. lra.
Qed.

Lemma enter_immediate k :
  burst_inv capacity rate t0 k -> (Z.of_nat k < Qfloor capacity)%Z ->
  acquire_enter t0 (state k)
  = (Immediate, consume (refill t0 (state k))).
Proof.
  intros Hinv Hk. unfold acquire_enter.
  assert (Qle_bool 1 (tokens (refill t0 (state k))) = true) as ->.
  { apply Qle_bool_iff. rewrite (refilled_tokens k Hinv).
    now apply floor_room. }
  reflexivity.
Qed.

Lemma burst_inv_S k :
  burst_inv capacity rate t0 k -> (Z.of_nat k < Qfloor capacity)%Z ->
  burst_inv capacity rate t0 (S k).
Proof.
  intros Hinv Hk. unfold burst_inv.
  rewrite after_burst_S. cbn [run_segment].
  rewrite (enter_immediate k Hinv Hk). cbn [snd].
  pose proof (refilled_tokens k Hinv) as Ht.
  destruct Hinv as (_ & _ & Hm).
  split; [|split].
  - cbn [consume tokens]. rewrite Ht, inject_Z_succ. ring.
  - reflexivity.
  - exact Hm.
Qed.

Lemma burst_inv_all k :
  (Z.of_nat k <= Qfloor capacity)%Z -> burst_inv capacity rate t0 k.
Proof.
  induction k as [|k IH]; intros Hk.
  - unfold burst_inv, after_burst. simpl.
    split; [|split; reflexivity]. ring.
  - apply burst_inv_S; [apply IH|]; lia.
Qed.

Lemma enter_suspends k :
  burst_inv capacity rate t0 k -> Z.of_nat k = Qfloor capacity ->
  exists wait, fst (acquire_enter t0 (state k)) = Suspended wait.
Proof.
  intros Hinv Hk. unfold acquire_enter.
  assert (Qle_bool 1 (tokens (refill t0 (state k))) = false) as ->.
  { destruct (Qle_bool 1 (tokens (refill t0 (state k)))) eqn:E;
      [|reflexivity].
    apply Qle_bool_iff in E. rewrite (refilled_tokens k Hinv) in E.
    pose proof (Qlt_floor capacity) as Hlt.
    rewrite inject_Z_plus, <- Hk in Hlt.
    change (inject_Z 1) with 1%Q in Hlt. lra. }
  eexists. reflexivity.
Qed.

Lemma floor_nonneg : (0 <= capacity)%Q -> (0 <= Qfloor capacity)%Z.
Proof.
  intros H. change 0%Z with (Qfloor 0). now apply Qfloor_resp_le.
Qed.
End Burst.
End BurstFacts.

(** C10: a limiter is constructed with a full bucket.  For a capacity
    [>= 0], the first [floor(capacity)] calls of [acquire] entered at the
    instant of construction each return at once, they leave
    [capacity - floor(capacity)] tokens, and the call after them suspends. *)
Theorem fresh_bucket_burst (capacity rate : Q) (t0 : Z) :
  (0 <= capacity)%Q ->
  let n := Z.to_nat (Qfloor capacity) in
  RateLimiter.tokens (RateLimiter.new capacity rate t0) = capacity /\
  (forall k, (k < n)%nat ->
     fst (RateLimiter.acquire_enter t0 (after_burst capacity rate t0 k))
     = RateLimiter.Immediate) /\
  (forall later,
     run_acquires (RateLimiter.new capacity rate t0) (repeat (t0, later) n)
     = after_burst capacity rate t0 n) /\
  (RateLimiter.tokens (after_burst capacity rate t0 n)
   == capacity - inject_Z (Qfloor capacity))%Q /\
  (exists wait,
     fst (RateLimiter.acquire_enter t0 (after_burst capacity rate t0 n))
     = RateLimiter.Suspended wait).
Proof.
  intros Hc. cbn zeta.
  pose proof (BurstFacts.floor_nonneg capacity Hc) as Hfloor.
  assert (Himm : forall k, (k < Z.to_nat (Qfloor capacity))%nat ->
    RateLimiter.acquire_enter t0 (after_burst capacity rate t0 k)
    = (RateLimiter.Immediate,
       RateLimiter.consume
         (RateLimiter.refill t0 (after_burst capacity rate t0 k)))).
  { intros k Hk. apply BurstFacts.enter_immediate; [|lia].
    apply BurstFacts.burst_inv_all. lia. }
  split; [reflexivity|]. split; [|split; [|split]].
  - intros k Hk. now rewrite Himm.
  - intros later.
    assert (Hrun : forall k, (k <= Z.to_nat (Qfloor capacity))%nat ->
      run_acquires (RateLimiter.new capacity rate t0) (repeat (t0, later) k)
      = after_burst capacity rate t0 k).
    { induction k as [|k IH]; intros Hk; [reflexivity|].
      change (repeat (t0, later) (S k))
        with ((t0, later) :: repeat (t0, later) k).
      rewrite repeat_cons. unfold run_acquires in *.
      rewrite fold_left_app, IH by lia. cbn [fold_left fst snd].
      rewrite BurstFacts.after_burst_S. unfold RateLimiter.acquire.
      cbn [RateLimiter.run_segment]. now rewrite Himm by lia. }
    now apply Hrun.
  - destruct (BurstFacts.burst_inv_all capacity rate t0
                (Z.to_nat (Qfloor capacity))) as (Ht & _); [lia|].
    rewrite Ht, Z2Nat.id by assumption. reflexivity.
  - apply BurstFacts.enter_suspends; [|lia].
    apply BurstFacts.burst_inv_all. lia.
Qed.

(** ** The theorems at concrete inputs *)




Lemma fresh_bucket_burst_witness :
  (0 <= 5 # 2)%Q /\
  (RateLimiter.tokens (after_burst (5 # 2) 1 0 2) == 1 # 2)%Q.
Proof.
  assert (H : (0 <= 5 # 2)%Q) by (vm_compute; discriminate).
  split; [exact H|].
  destruct (fresh_bucket_burst (5 # 2) 1 0 H) as (_ & _ & _ & Ht & _).
  exact Ht.
Defined.


(** The scenario of the specification: of the three offers of one flight
    the first at the lowest price is the one returned. *)
Example three_prices_one_flight :
  dedupe_and_sort three_prices = [same_flight "amadeus" (390 # 1)].
Proof. reflexivity. Qed.

(** A search at time 0 whose result is stored at time 40: the same request
    five minutes after the storing is answered from the cache, one
    millisecond later it is computed again from the providers of the day. *)
Example search_twice :
  let run1 :=
    FlightAggregator.searchFlights three_sources 0 40
      request_of_search_tool None in
  let again t :=
    FlightAggregator.searchFlights
      {| FlightAggregator.providers := later_sources;
         FlightAggregator.cache :=
           FlightAggregator.cache (FlightAggregator.after run1) |}
      t (t + 25) request_of_search_tool None in
  List.map NormalizedFlight.price (FlightAggregator.returned run1)
  = [310 # 1; 390 # 1]%Q /\
  FlightAggregator.invoked run1 = ["kiwi"; "amadeus"; "serpapi"]%string /\
  FlightAggregator.errors run1
  = ["amadeus: Error: Amadeus API error: 500"]%string /\
  FlightAggregator.returned (again 300040)
  = FlightAggregator.returned run1 /\
  FlightAggregator.invoked (again 300040) = [] /\
  List.map NormalizedFlight.price (FlightAggregator.returned (again 300041))
  = [405 # 1]%Q /\
  FlightAggregator.invoked (again 300041) = ["kiwi"]%string.
Proof. vm_compute. repeat split. Qed.

(** * Part III: further properties of the code *)

(** ** The cache: [set], [get], [clear] together *)

Module TTLCacheMore.
Section Facts.
Context {V : Type}.
Implicit Types (c : TTLCache.t V) (key : string) (now : Z) (v : V).

Lemma lookup_set_eq c now key v ttl_ms :
  TTLCache.store (TTLCache.set now key v ttl_ms c) !! key
  = Some {| TTLCache.value := v;
            TTLCache.expires_at := expiry_of c now ttl_ms |}.
Proof. unfold TTLCache.set, expiry_of. simpl. apply lookup_insert_eq. Qed.

Lemma lookup_set_ne c now key key' v ttl_ms :
  key <> key' ->
  TTLCache.store (TTLCache.set now key v ttl_ms c) !! key'
  = TTLCache.store c !! key'.
Proof. intros Hne. unfold TTLCache.set. simpl. now apply lookup_insert_ne. Qed.

Lemma lookup_get_ne c now key key' :
  key <> key' ->
  TTLCache.store (snd (TTLCache.get now key c)) !! key'
  = TTLCache.store c !! key'.
Proof.
  intros Hne. unfold TTLCache.get.
  destruct (TTLCache.store c !! key) as [entry|]; [|reflexivity].
  destruct (now >? TTLCache.expires_at entry)%Z; [|reflexivity].
  simpl. now apply lookup_delete_ne.
Qed.

(** What [get] answers depends on the entry under the key alone. *)
Lemma get_fst_lookup c c' now key :
  TTLCache.store c !! key = TTLCache.store c' !! key ->
  fst (TTLCache.get now key c) = fst (TTLCache.get now key c').
Proof.
  intros H. unfold TTLCache.get. rewrite H.
  destruct (TTLCache.store c' !! key) as [entry|]; [|reflexivity].
  now destruct (now >? TTLCache.expires_at entry)%Z.
Qed.

Lemma get_absent c now key :
  TTLCache.store c !! key = None ->
  TTLCache.get now key c = (None, c).
Proof. intros H. unfold TTLCache.get. now rewrite H. Qed.

(** After a read, the key either holds what it held or holds nothing. *)
Lemma lookup_after_get c now key :
  TTLCache.store (snd (TTLCache.get now key c)) !! key
  = TTLCache.store c !! key \/
  TTLCache.store (snd (TTLCache.get now key c)) !! key = None.
Proof.
  unfold TTLCache.get.
  destruct (TTLCache.store c !! key) as [entry|] eqn:E; [|now left].
  destruct (now >? TTLCache.expires_at entry)%Z; [|now left].
  right. simpl. apply lookup_delete_eq.
Qed.
End Facts.
End TTLCacheMore.

(** X1: what [set] stores is what [get] returns, while the clock is at most
    the time of storing plus the TTL given (or the default one); such a
    read changes nothing.  Past that instant the read is absent.  A TTL of
    zero keeps the entry readable at the instant of storing only. *)
Theorem cache_set_then_get {V : Type}
    (c : TTLCache.t V) (now : Z) (key : string) (v : V)
    (ttl_ms : option Z) (later : Z) :
  let c' := TTLCache.set now key v ttl_ms c in
  let expiry := expiry_of c now ttl_ms in
  ((later <= expiry)%Z -> TTLCache.get later key c' = (Some v, c')) /\
  ((expiry < later)%Z -> fst (TTLCache.get later key c') = None) /\
  TTLCache.default_ttl_ms c' = TTLCache.default_ttl_ms c.
Proof.
  cbn zeta. pose proof (TTLCacheMore.lookup_set_eq c now key v ttl_ms) as Hl.
  split; [|split; [|reflexivity]].
  - intros Hle. now rewrite (TTLCacheFacts.get_hit _ _ _ _ Hl Hle).
  - intros Hlt.
    now destruct (TTLCacheFacts.get_stale _ _ _ _ Hl Hlt) as [H _].
Qed.

(** X2: storing under one key, or reading one key (even when the read
    evicts), never changes what is read under another key. *)
Theorem cache_other_keys_untouched {V : Type}
    (c : TTLCache.t V) (now : Z) (key key' : string) (v : V)
    (ttl_ms : option Z) (later : Z) :
  key <> key' ->
  fst (TTLCache.get later key' (TTLCache.set now key v ttl_ms c))
  = fst (TTLCache.get later key' c) /\
  fst (TTLCache.get later key' (snd (TTLCache.get now key c)))
  = fst (TTLCache.get later key' c).
Proof.
  intros Hne. split; apply TTLCacheMore.get_fst_lookup.
  - now apply TTLCacheMore.lookup_set_ne.
  - now apply TTLCacheMore.lookup_get_ne.
Qed.

Lemma cache_other_keys_untouched_witness :
  let c := TTLCache.set 0 "KRK-STN" 199%Z None (TTLCache.new 300) in
  "KRK-BCN" <> "KRK-STN" /\
  fst (TTLCache.get 10 "KRK-STN" (TTLCache.set 5 "KRK-BCN" 249%Z (Some 60) c))
  = fst (TTLCache.get 10 "KRK-STN" c).
Proof.
  intros c.
  assert (Hne : "KRK-BCN" <> "KRK-STN") by discriminate.
  split; [exact Hne|].
  exact (proj1 (cache_other_keys_untouched c 5 "KRK-BCN" "KRK-STN" 249%Z
                  (Some 60%Z) 10 Hne)).
Defined.

(** X3: a key that was read stale, or a cache that was cleared, answers
    absent at every later read, whatever the clock says, until the key is
    set again; eviction does not touch the entry that is still fresh. *)
Theorem cache_eviction_is_final {V : Type}
    (c : TTLCache.t V) (key : string) (t1 t2 : Z) :
  (fst (TTLCache.get t1 key c) = None ->
   fst (TTLCache.get t2 key (snd (TTLCache.get t1 key c))) = None) /\
  fst (TTLCache.get t2 key (TTLCache.clear c)) = None /\
  (forall v, fst (TTLCache.get t1 key c) = Some v ->
             snd (TTLCache.get t1 key c) = c).
Proof.
  split; [|split].
  - intros Hnone.
    destruct (TTLCache.store c !! key) as [entry|] eqn:Hlook.
    + destruct (Z.le_gt_cases t1 (TTLCache.expires_at entry)) as [Hle|Hgt].
      * rewrite (TTLCacheFacts.get_hit _ _ _ _ Hlook Hle) in Hnone.
        discriminate.
      * destruct (TTLCacheFacts.get_stale _ _ _ _ Hlook Hgt)
          as (_ & Hgone & _).
        now rewrite (TTLCacheMore.get_absent _ _ _ Hgone).
    + rewrite (TTLCacheMore.get_absent _ _ _ Hlook). simpl.
      now rewrite (TTLCacheMore.get_absent _ _ _ Hlook).
  - unfold TTLCache.get, TTLCache.clear. simpl. now rewrite lookup_empty.
  - intros v Hsome. apply TTLCacheFacts.get_Some_iff in Hsome.
    destruct Hsome as (entry & Hlook & _ & Hle).
    now rewrite (TTLCacheFacts.get_hit _ _ _ _ Hlook Hle).
Qed.

(** ** The rate limiter: accounting *)

Module AccountingFacts.
Import RateLimiter.









End AccountingFacts.




(** ** The rate limiter: waiting and refilling *)

Module WaitFacts.
Import RateLimiter.





End WaitFacts.







(** ** The keep-the-cheapest loop: which keys come out *)

Section CheapestMore.
Context {A : Type}.
Variable key : A -> string.
Variable price : A -> Q.

Lemma get_None_keys (m : JsMap.t A) (k : string) :
  JsMap.get k m = None <-> ~ In k (JsMap.keys m).
Proof.
  induction m as [|[k1 v1] m IH]; simpl.
  - split; [intros _ []|reflexivity].
  - destruct (String.eqb_spec k k1) as [->|Hne].
    + split; [discriminate|]. intros H. exfalso. apply H. now left.
    + rewrite IH. split.
      * intros H [Heq|Hin]; [congruence|contradiction].
      * intros H Hin. apply H. now right.
Qed.

Lemma set_absent (m : JsMap.t A) (k : string) (v : A) :
  JsMap.get k m = None -> JsMap.set k v m = m ++ [(k, v)].
Proof.
  induction m as [|[k1 v1] m IH]; simpl; [reflexivity|].
  destruct (String.eqb k k1); [discriminate|].
  intros H. now rewrite IH.
Qed.

(** The keys that come out are the keys that went in. *)
Lemma cheapest_keys_iff (l : list A) (k : string) :
  In k (List.map key (cheapest_by_key key price l)) <-> In k (List.map key l).
Proof.
  pose proof (cheapest_inv_final key price l) as Hinv. split.
  - rewrite in_map_iff. intros (v & <- & Hv).
    apply cheapest_by_key_first in Hv.
    apply in_map. eapply first_cheapest_In. eassumption.
  - rewrite in_map_iff. intros (f & <- & Hf).
    destruct (cheapest_by_key_cover key price l f Hf) as (v & Hv & Hk & _).
    rewrite <- Hk. now apply in_map.
Qed.

Lemma cheapest_by_key_length (l : list A) :
  List.length (cheapest_by_key key price l) = distinct_keys key l.
Proof.
  unfold distinct_keys.
  rewrite <- (length_map key (cheapest_by_key key price l)).
  apply Permutation_length, NoDup_Permutation.
  - apply cheapest_by_key_NoDup.
  - apply NoDup_nodup.
  - intros k. rewrite nodup_In. apply cheapest_keys_iff.
Qed.

(** A list that already has one element per key goes through unchanged. *)
Lemma cheapest_loop_fresh (l : list A) : forall m,
  NoDup (JsMap.keys m ++ List.map key l) ->
  cheapest_loop key price l m = m ++ List.map (fun f => (key f, f)) l.
Proof.
  unfold cheapest_loop.
  induction l as [|f l IH]; intros m Hnd; cbn [fold_left List.map].
  - now rewrite app_nil_r.
  - assert (Hget : JsMap.get (key f) m = None).
    { apply get_None_keys. intros Hin.
      cbn [List.map] in Hnd. apply NoDup_remove_2 in Hnd. apply Hnd.
      apply in_or_app. now left. }
    assert (Hstep : cheapest_step key price m f = m ++ [(key f, f)]).
    { unfold cheapest_step. rewrite Hget. now apply set_absent. }
    rewrite Hstep, IH.
    + now rewrite <- app_assoc.
    + unfold JsMap.keys in *. rewrite map_app. cbn [List.map fst] in *.
      rewrite <- app_assoc. exact Hnd.
Qed.

Lemma cheapest_by_key_fixed (l : list A) :
  NoDup (List.map key l) -> cheapest_by_key key price l = l.
Proof.
  intros Hnd. unfold cheapest_by_key.
  rewrite (cheapest_loop_fresh l JsMap.empty) by exact Hnd.
  unfold JsMap.values, JsMap.empty. simpl. rewrite map_map. simpl.
  apply map_id.
Qed.
End CheapestMore.

(** ** The sort: a sorted list stays as it is *)

Section SortMore.
Context {A : Type}.
Variable cmp : A -> A -> Q.
Variable le : A -> A -> Prop.
Hypothesis le_cmp : forall a b, le a b -> (cmp a b <= 0)%Q.

Lemma js_sort_sorted_fixed (l : list A) :
  StronglySorted le l -> js_sort cmp l = l.
Proof.
  induction 1 as [|x l Hs IH Hall]; [reflexivity|].
  cbn [js_sort fold_right]. fold (js_sort cmp l). rewrite IH.
  destruct l as [|y t]; [reflexivity|].
  cbn [sort_insert]. inversion Hall as [|? ? Hxy _]; subst.
  apply le_cmp, Qle_bool_iff in Hxy. now rewrite Hxy.
Qed.
End SortMore.

Lemma price_then_duration_compare a b :
  price_then_duration a b -> (compare_flights a b <= 0)%Q.
Proof.
  unfold price_then_duration, compare_flights.
  intros [Hlt|[Heq Hd]].
  - assert (Qeq_bool (NormalizedFlight.price a) (NormalizedFlight.price b)
            = false) as ->.
    { destruct (Qeq_bool (NormalizedFlight.price a)
                  (NormalizedFlight.price b)) eqn:E; [|reflexivity].
      apply Qeq_bool_iff in E. lra. }
    cbn [negb]. lra.
  - apply Qeq_bool_iff in Heq. rewrite Heq. cbn [negb].
    apply <- inject_Z_nonpos. lia.
Qed.

Lemma NoDup_map_same_key {A B : Type} (f : A -> B) (l : list A) (x y : A) :
  NoDup (List.map f l) -> In x l -> In y l -> f x = f y -> x = y.
Proof.
  induction l as [|a l IH]; simpl; intros Hnd Hx Hy Hf; [destruct Hx|].
  inversion Hnd as [|? ? Hnotin Hnd']; subst.
  destruct Hx as [->|Hx], Hy as [->|Hy].
  - reflexivity.
  - exfalso. apply Hnotin. rewrite Hf. now apply in_map.
  - exfalso. apply Hnotin. rewrite <- Hf. now apply in_map.
  - now apply IH.
Qed.

Lemma distinct_keys_le {A : Type} (key : A -> string) (l : list A) :
  (distinct_keys key l <= List.length l)%nat.
Proof.
  unfold distinct_keys. rewrite <- (length_map key l).
  apply NoDup_incl_length; [apply NoDup_nodup|].
  intros k Hk. now apply nodup_In in Hk.
Qed.

Lemma distinct_keys_zero {A : Type} (key : A -> string) (l : list A) :
  distinct_keys key l = 0%nat -> l = [].
Proof.
  unfold distinct_keys. intros H. apply length_zero_iff_nil in H.
  destruct l as [|x l]; [reflexivity|]. exfalso.
  assert (In (key x) (nodup string_dec (List.map key (x :: l)))) as Hin
    by (apply nodup_In; now left).
  rewrite H in Hin. destruct Hin.
Qed.

Lemma dedupe_and_sort_length flights :
  List.length (dedupe_and_sort flights) = distinct_keys flight_key flights.
Proof.
  unfold dedupe_and_sort, deduplicate.
  rewrite <- (Permutation_length (js_sort_perm compare_flights _)).
  apply cheapest_by_key_length.
Qed.

(** X9: aggregating what an aggregation returned changes nothing: the list
    is already deduplicated and sorted. *)
Theorem dedupe_and_sort_idempotent (flights : list NormalizedFlight.t) :
  dedupe_and_sort (dedupe_and_sort flights) = dedupe_and_sort flights.
Proof.
  unfold dedupe_and_sort at 1.
  assert (Hfixed : deduplicate (dedupe_and_sort flights)
                   = dedupe_and_sort flights).
  { apply cheapest_by_key_fixed. unfold dedupe_and_sort.
    apply js_sort_NoDup_map, cheapest_by_key_NoDup. }
  rewrite Hfixed.
  apply (js_sort_sorted_fixed compare_flights price_then_duration).
  - apply price_then_duration_compare.
  - unfold dedupe_and_sort. apply js_sort_sorted.
    + apply price_then_duration_trans.
    + apply compare_flights_le.
    + apply compare_flights_gt.
Qed.

(** X10: a search returns exactly one offer for each distinct joined key
    among the candidates, so never more offers than it was given, and none
    only when it was given none. *)
Theorem search_result_size (flights : list NormalizedFlight.t) :
  List.length (dedupe_and_sort flights) = distinct_keys flight_key flights /\
  (List.length (dedupe_and_sort flights) <= List.length flights)%nat /\
  (dedupe_and_sort flights = [] <-> flights = []).
Proof.
  pose proof (dedupe_and_sort_length flights) as Hlen.
  split; [exact Hlen|]. split.
  - rewrite Hlen. apply distinct_keys_le.
  - split.
    + intros Hnil. apply (distinct_keys_zero flight_key).
      rewrite <- Hlen, Hnil. reflexivity.
    + intros ->. reflexivity.
Qed.

(** X11: the order in which the candidates arrive (which provider answers
    first in the flattened list) decides neither which joined keys are
    returned nor at what price: a rearranged input gives, for every
    returned offer, a returned offer of the same key and price. *)
Theorem search_ignores_arrival_order
    (flights flights' : list NormalizedFlight.t) :
  Permutation flights flights' ->
  List.length (dedupe_and_sort flights')
  = List.length (dedupe_and_sort flights) /\
  forall o, In o (dedupe_and_sort flights) ->
    exists o', In o' (dedupe_and_sort flights') /\
               flight_key o' = flight_key o /\
               (NormalizedFlight.price o' == NormalizedFlight.price o)%Q.
Proof.
  intros Hperm. split.
  - rewrite !dedupe_and_sort_length. unfold distinct_keys.
    apply Permutation_length, NoDup_Permutation;
      [apply NoDup_nodup|apply NoDup_nodup|].
    intros k. rewrite !nodup_In.
    split; apply Permutation_in;
      [|apply Permutation_sym]; now apply Permutation_map.
  - intros o Ho.
    assert (Hnd : NoDup (List.map flight_key (dedupe_and_sort flights))).
    { unfold dedupe_and_sort, deduplicate.
      apply js_sort_NoDup_map, cheapest_by_key_NoDup. }
    assert (Hsrc : forall l x, In x (dedupe_and_sort l) -> In x l).
    { intros l x Hx. unfold dedupe_and_sort, deduplicate in Hx.
      apply js_sort_In, cheapest_by_key_first in Hx.
      eapply first_cheapest_In. eassumption. }
    assert (Hcov : forall l f, In f l ->
      exists v, In v (dedupe_and_sort l) /\ flight_key v = flight_key f /\
                (NormalizedFlight.price v <= NormalizedFlight.price f)%Q).
    { intros l f Hf.
      destruct (cheapest_by_key_cover flight_key NormalizedFlight.price l f Hf)
        as (v & Hv & Hk & Hp).
      exists v. split; [|split; assumption].
      unfold dedupe_and_sort, deduplicate. now apply js_sort_In. }
    destruct (Hcov flights' o) as (o' & Ho' & Hk' & Hp').
    { eapply Permutation_in; [exact Hperm|]. now apply Hsrc. }
    destruct (Hcov flights o') as (o'' & Ho'' & Hk'' & Hp'').
    { eapply Permutation_in; [apply Permutation_sym; exact Hperm|].
      now apply Hsrc. }
    assert (o'' = o) as ->.
    { apply (NoDup_map_same_key flight_key _ _ _ Hnd Ho'' Ho). congruence. }
    exists o'. split; [assumption|]. split; [assumption|]. lra.
Qed.

Lemma search_ignores_arrival_order_witness :
  Permutation three_prices (List.rev three_prices) /\
  List.length (dedupe_and_sort (List.rev three_prices))
  = List.length (dedupe_and_sort three_prices).
Proof.
  assert (H : Permutation three_prices (List.rev three_prices))
    by apply Permutation_rev.
  split; [exact H|].
  destruct (search_ignores_arrival_order three_prices
              (List.rev three_prices) H) as [Hlen _].
  exact Hlen.
Defined.

(** X12: an explore returns as many offers as there are distinct
    destinations among the candidates, cut at the limit: all of them
    without a numeric limit, [min limit n] of [n] for a limit [>= 0], and
    all but the last [-limit] for a negative limit. *)
Theorem explore_result_size
    (destinations : list ExploreResult.t) (limit : option Z) :
  let n := distinct_keys ExploreResult.destination destinations in
  List.length (dedupe_sort_limit destinations limit)
  = match limit with
    | None => n
    | Some k =>
        if (k <? 0)%Z
        then Z.to_nat (Z.max (Z.of_nat n + k) 0)
        else Nat.min (Z.to_nat k) n
    end.
Proof.
  cbn zeta. unfold dedupe_sort_limit.
  assert (Hlen :
    List.length
      (js_sort compare_destinations
         (cheapest_by_key ExploreResult.destination ExploreResult.price
            destinations))
    = distinct_keys ExploreResult.destination destinations).
  { rewrite <- (Permutation_length (js_sort_perm compare_destinations _)).
    apply cheapest_by_key_length. }
  unfold js_slice0. destruct limit as [k|]; [|exact Hlen].
  destruct (Z.ltb_spec k 0); rewrite length_firstn, Hlen; lia.
Qed.

(** ** The aggregator: who is asked *)

Lemma includes_In (names : list string) (n : string) :
  FlightAggregator.includes names n = true <-> In n names.
Proof.
  unfold FlightAggregator.includes. rewrite existsb_exists. split.
  - intros (x & Hx & Heq). apply String.eqb_eq in Heq. now subst.
  - intros Hin. exists n. split; [assumption|apply String.eqb_refl].
Qed.

Lemma getActiveProviders_In agg f p :
  In p (FlightAggregator.getActiveProviders agg f) <->
  In p (FlightAggregator.providers agg) /\
  IFlightProvider.isAvailable p = true /\
  passes_filter f (IFlightProvider.name p).
Proof.
  unfold FlightAggregator.getActiveProviders. rewrite filter_In.
  destruct (IFlightProvider.isAvailable p); cbn [negb].
  - destruct f as [[|a names]|]; cbn [passes_filter List.length].
    + simpl. tauto.
    + assert ((0 <? Z.of_nat (S (List.length names)))%Z = true) as ->
        by (apply Z.ltb_lt; lia).
      cbn [andb].
      destruct (FlightAggregator.includes (a :: names)
                  (IFlightProvider.name p)) eqn:E; cbn [negb].
      * apply includes_In in E. tauto.
      * split; [intros [_ H]; discriminate|].
        intros (_ & _ & Hin). apply includes_In in Hin. congruence.
    + tauto.
  - split; [intros [_ H]; discriminate|]. intros (_ & H & _). discriminate.
Qed.

Lemma explore_calls_names active params :
  List.map fst (FlightAggregator.explore_calls active params)
  = List.map IFlightProvider.name (List.filter can_explore active).
Proof.
  induction active as [|p active IH]; [reflexivity|].
  cbn [FlightAggregator.explore_calls List.filter]. unfold can_explore at 1.
  destruct (IFlightProvider.exploreDestinations p); simpl; now rewrite IH.
Qed.

Lemma exploreDestinations_miss_run agg now_get now_set params sourcesFilter :
  let key := FlightAggregator.cache_key "explore" params sourcesFilter in
  let active := FlightAggregator.getActiveProviders agg sourcesFilter in
  let sorted := dedupe_sort_limit (successful_destinations active params)
                  (obj_number "limit" params) in
  fst (TTLCache.get now_get key (FlightAggregator.cache agg)) = None ->
  FlightAggregator.exploreDestinations agg now_get now_set params
    sourcesFilter
  = {| FlightAggregator.returned := sorted;
       FlightAggregator.after :=
         {| FlightAggregator.providers := FlightAggregator.providers agg;
            FlightAggregator.cache :=
              TTLCache.set now_set key (FlightAggregator.Destinations sorted)
                None
                (snd (TTLCache.get now_get key (FlightAggregator.cache agg)))
         |};
       FlightAggregator.invoked :=
         List.map IFlightProvider.name (List.filter can_explore active);
       FlightAggregator.errors := [] |}.
Proof.
  cbn zeta. intros Hmiss. unfold FlightAggregator.exploreDestinations.
  destruct (TTLCache.get now_get _ (FlightAggregator.cache agg))
    as [cached cache1].
  simpl in Hmiss. subst cached. cbn [snd].
  now rewrite collect_destinations_spec, explore_calls_names.
Qed.

Lemma exploreDestinations_hit agg now_get now_set params sourcesFilter entry :
  let key := FlightAggregator.cache_key "explore" params sourcesFilter in
  TTLCache.store (FlightAggregator.cache agg) !! key = Some entry ->
  (now_get <= TTLCache.expires_at entry)%Z ->
  FlightAggregator.exploreDestinations agg now_get now_set params
    sourcesFilter
  = {| FlightAggregator.returned :=
         FlightAggregator.as_destinations (TTLCache.value entry);
       FlightAggregator.after :=
         {| FlightAggregator.providers := FlightAggregator.providers agg;
            FlightAggregator.cache := FlightAggregator.cache agg |};
       FlightAggregator.invoked := [];
       FlightAggregator.errors := [] |}.
Proof.
  cbn zeta. intros Hlook Hle. unfold FlightAggregator.exploreDestinations.
  now rewrite (TTLCacheFacts.get_hit _ _ _ _ Hlook Hle).
Qed.



(** X13: a search only ever calls providers that are configured,
    available, and let through by the source filter (an empty filter lets
    everyone through); and when the cache does not answer it calls every
    one of them. *)
Theorem search_calls_the_eligible
    (agg : FlightAggregator.t) (now_get now_set : Z)
    (params : JsObject) (sourcesFilter : option (list string)) :
  let run :=
    FlightAggregator.searchFlights agg now_get now_set params sourcesFilter in
  (forall n, In n (FlightAggregator.invoked run) ->
     exists p, In p (FlightAggregator.providers agg) /\
               IFlightProvider.name p = n /\
               IFlightProvider.isAvailable p = true /\
               passes_filter sourcesFilter n) /\
  (fst (TTLCache.get now_get
          (FlightAggregator.cache_key "search" params sourcesFilter)
          (FlightAggregator.cache agg)) = None ->
   forall p, In p (FlightAggregator.providers agg) ->
     IFlightProvider.isAvailable p = true ->
     passes_filter sourcesFilter (IFlightProvider.name p) ->
     In (IFlightProvider.name p) (FlightAggregator.invoked run)).
Proof.
  cbn zeta.
  destruct (fst (TTLCache.get now_get
                   (FlightAggregator.cache_key "search" params sourcesFilter)
                   (FlightAggregator.cache agg))) as [v|] eqn:Hget.
  - apply TTLCacheFacts.get_Some_iff in Hget.
    destruct Hget as (entry & Hlook & _ & Hle).
    rewrite (searchFlights_hit _ _ _ _ _ _ Hlook Hle). simpl.
    split; [intros n []|discriminate].
  - rewrite (searchFlights_miss _ _ _ _ _ Hget). simpl. split.
    + intros n Hin. apply in_map_iff in Hin. destruct Hin as (p & <- & Hp).
      apply getActiveProviders_In in Hp. destruct Hp as (Hp & Ha & Hf).
      exists p. auto.
    + intros _ p Hp Ha Hf. apply in_map.
      apply getActiveProviders_In. auto.
Qed.



Lemma explore_leaves_entry agg t1 t1' params sourcesFilter :
  let key := FlightAggregator.cache_key "explore" params sourcesFilter in
  let run1 :=
    FlightAggregator.exploreDestinations agg t1 t1' params sourcesFilter in
  exists entry,
    TTLCache.store (FlightAggregator.cache (FlightAggregator.after run1))
      !! key = Some entry /\
    FlightAggregator.as_destinations (TTLCache.value entry)
    = FlightAggregator.returned run1 /\
    (fst (TTLCache.get t1 key (FlightAggregator.cache agg)) = None ->
     TTLCache.expires_at entry
     = (t1' + TTLCache.default_ttl_ms (FlightAggregator.cache agg))%Z).
Proof.
  cbn zeta.
  destruct (fst (TTLCache.get t1
                   (FlightAggregator.cache_key "explore" params sourcesFilter)
                   (FlightAggregator.cache agg))) as [v|] eqn:Hget.
  - apply TTLCacheFacts.get_Some_iff in Hget.
    destruct Hget as (entry & Hlook & <- & Hle).
    rewrite (exploreDestinations_hit _ _ _ _ _ _ Hlook Hle). simpl.
    exists entry. split; [assumption|]. split; [reflexivity|discriminate].
  - rewrite (exploreDestinations_miss_run _ _ _ _ _ Hget). simpl.
    eexists. split; [apply TTLCacheFacts.lookup_set|].
    split; [reflexivity|]. intros _. simpl.
    now rewrite TTLCacheFacts.get_ttl.
Qed.

(** X15: explore results are cached like search results.  After an
    explore, the same request and filter asked again no later than the
    entry's expiry (the time of storing plus the TTL, when the first call
    computed) gets the same list with no provider called; asked later, the
    entry is deleted on the read and the list is computed afresh. *)
Theorem explore_cache_reuse
    (agg : FlightAggregator.t) (t1 t1' : Z)
    (params : JsObject) (sourcesFilter : option (list string)) :
  let key := FlightAggregator.cache_key "explore" params sourcesFilter in
  let run1 :=
    FlightAggregator.exploreDestinations agg t1 t1' params sourcesFilter in
  exists entry,
    TTLCache.store (FlightAggregator.cache (FlightAggregator.after run1))
      !! key = Some entry /\
    (fst (TTLCache.get t1 key (FlightAggregator.cache agg)) = None ->
     TTLCache.expires_at entry
     = (t1' + TTLCache.default_ttl_ms (FlightAggregator.cache agg))%Z) /\
    forall (providers2 : list IFlightProvider.t) (t2 t2' : Z),
      let agg2 :=
        {| FlightAggregator.providers := providers2;
           FlightAggregator.cache :=
             FlightAggregator.cache (FlightAggregator.after run1) |} in
      let run2 :=
        FlightAggregator.exploreDestinations agg2 t2 t2' params
          sourcesFilter in
      ((t2 <= TTLCache.expires_at entry)%Z ->
       FlightAggregator.returned run2 = FlightAggregator.returned run1 /\
       FlightAggregator.invoked run2 = [] /\
       FlightAggregator.cache (FlightAggregator.after run2)
       = FlightAggregator.cache (FlightAggregator.after run1)) /\
      ((TTLCache.expires_at entry < t2)%Z ->
       TTLCache.store
         (snd (TTLCache.get t2 key (FlightAggregator.cache agg2)))
         !! key = None /\
       FlightAggregator.returned run2
       = dedupe_sort_limit
           (successful_destinations
              (FlightAggregator.getActiveProviders agg2 sourcesFilter)
              params)
           (obj_number "limit" params)).
Proof.
  cbn zeta.
  destruct (explore_leaves_entry agg t1 t1' params sourcesFilter)
    as (entry & Hlook & Hval & Hexp).
  exists entry. split; [assumption|]. split; [assumption|].
  intros providers2 t2 t2'. split.
  - intros Hle.
    rewrite (exploreDestinations_hit _ t2 t2' params sourcesFilter entry);
      [|exact Hlook|exact Hle].
    simpl. auto.
  - intros Hlt.
    set (agg2 := {| FlightAggregator.providers := providers2;
                    FlightAggregator.cache := _ |}).
    destruct (TTLCacheFacts.get_stale (FlightAggregator.cache agg2) t2 _
                entry Hlook Hlt) as (Hnone & Hgone & _).
    split; [exact Hgone|].
    now rewrite (exploreDestinations_miss_run agg2 t2 t2' params
                   sourcesFilter Hnone).
Qed.

(** ** The cache key determines the request *)

Module KeyFacts.
Import Json JsonRead.
Local Open Scope string_scope.

Lemma append_assoc (a b c : string) : (a ++ b) ++ c = a ++ (b ++ c).
Proof.
  induction a as [|x a IH]; [reflexivity|].
  change (String x ((a ++ b) ++ c) = String x (a ++ (b ++ c))).
  now f_equal.
Qed.

Lemma append_cons (c : ascii) (a b : string) :
  String c a ++ b = String c (a ++ b).
Proof. reflexivity. Qed.

Lemma append_nil (a : string) : "" ++ a = a.
Proof. reflexivity. Qed.

Lemma unescape_escape_char (c : ascii) (t : string) :
  unescape_head (escape_char c ++ t) = Some (c, t).
Proof.
  destruct c as [[] [] [] [] [] [] [] []]; reflexivity.
Qed.

Lemma escape_prefix_inj (s1 : string) : forall s2 r1 r2,
  escape s1 ++ String dquote r1 = escape s2 ++ String dquote r2 ->
  s1 = s2 /\ r1 = r2.
Proof.
  induction s1 as [|c1 s1 IH]; intros [|c2 s2] r1 r2 H;
    cbn [escape] in H; rewrite ?append_nil in H.
  - injection H as ->. auto.
  - exfalso. rewrite append_assoc in H.
    apply (f_equal unescape_head) in H.
    rewrite unescape_escape_char in H. discriminate H.
  - exfalso. rewrite append_assoc in H.
    apply (f_equal unescape_head) in H.
    rewrite unescape_escape_char in H. discriminate H.
  - rewrite !append_assoc in H.
    apply (f_equal unescape_head) in H.
    rewrite !unescape_escape_char in H. injection H as -> H.
    destruct (IH _ _ _ H) as [-> ->]. auto.
Qed.

Lemma quote_app (s r : string) :
  quote s ++ r = String dquote (escape s ++ String dquote r).
Proof.
  unfold quote. now rewrite append_cons, append_assoc, append_cons.
Qed.

Lemma quote_prefix_inj (s1 s2 r1 r2 : string) :
  quote s1 ++ r1 = quote s2 ++ r2 -> s1 = s2 /\ r1 = r2.
Proof.
  rewrite !quote_app. intros H. injection H as H.
  now apply escape_prefix_inj.
Qed.
(** *** Numbers *)

Lemma number_of_to_string (n : Z) :
  number_of_string (number_to_string n) = Some n.
Proof.
  unfold number_of_string, number_to_string.
  rewrite NilZero.isi.
  - simpl. now rewrite DecimalZ.of_to.
  - destruct n; try discriminate.
    intros H. injection H as H.
    now apply DecimalPos.Unsigned.to_uint_nonnil in H.
  - destruct n; try discriminate.
    intros H. injection H as H.
    now apply DecimalPos.Unsigned.to_uint_nonnil in H.
Qed.

Lemma number_to_string_inj (n1 n2 : Z) :
  number_to_string n1 = number_to_string n2 -> n1 = n2.
Proof.
  intros H. apply (f_equal number_of_string) in H.
  rewrite !number_of_to_string in H. now injection H.
Qed.

Lemma uint_chars (d : Decimal.uint) :
  all_number_chars (NilEmpty.string_of_uint d) = true.
Proof. induction d; simpl; auto. Qed.

Lemma number_to_string_chars (n : Z) :
  all_number_chars (number_to_string n) = true.
Proof.
  unfold number_to_string.
  destruct (Z.to_int n) as [d|d]; simpl.
  - destruct d; try reflexivity; apply (uint_chars (_ d)).
  - destruct d; try reflexivity; apply (uint_chars (_ d)).
Qed.

Lemma number_to_string_head (n : Z) :
  exists c rest, number_to_string n = String c rest /\
                 is_number_char c = true.
Proof.
  pose proof (number_to_string_chars n) as Hall.
  destruct (number_to_string n) as [|c rest] eqn:E.
  - exfalso. pose proof (number_of_to_string n) as H.
    rewrite E in H. discriminate H.
  - simpl in Hall. apply andb_true_iff in Hall.
    exists c, rest. tauto.
Qed.

(** Two numbers followed by texts that cannot continue a number: equal
    wholes have equal parts. *)
Lemma number_chars_prefix_inj (a : string) : forall b r1 r2,
  all_number_chars a = true -> all_number_chars b = true ->
  ends_number r1 -> ends_number r2 ->
  a ++ r1 = b ++ r2 -> a = b /\ r1 = r2.
Proof.
  induction a as [|x a IH]; intros [|y b] r1 r2 Ha Hb H1 H2 H;
    rewrite ?append_nil, ?append_cons in H.
  - auto.
  - exfalso. subst r1. simpl in H1, Hb.
    apply andb_true_iff in Hb. destruct Hb as [Hy _]. congruence.
  - exfalso. subst r2. simpl in H2, Ha.
    apply andb_true_iff in Ha. destruct Ha as [Hx _]. congruence.
  - injection H as -> H. simpl in Ha, Hb.
    apply andb_true_iff in Ha, Hb.
    destruct (IH b r1 r2) as [-> ->]; tauto.
Qed.

Lemma number_prefix_inj (n1 n2 : Z) (r1 r2 : string) :
  ends_number r1 -> ends_number r2 ->
  number_to_string n1 ++ r1 = number_to_string n2 ++ r2 ->
  n1 = n2 /\ r1 = r2.
Proof.
  intros H1 H2 H.
  destruct (number_chars_prefix_inj _ _ _ _
              (number_to_string_chars n1) (number_to_string_chars n2)
              H1 H2 H) as [Hn ->].
  split; [now apply number_to_string_inj|reflexivity].
Qed.
(** *** Comma-separated lists *)

Lemma concat_more (x : string) (xs : list string) (T : string) :
  concat "," (x :: xs) ++ T = x ++ more_elements xs T.
Proof.
  revert x. induction xs as [|y ys IH]; intros x.
  - reflexivity.
  - change (concat "," (x :: y :: ys))
      with (x ++ "," ++ concat "," (y :: ys)).
    rewrite !append_assoc, IH. reflexivity.
Qed.

Section SepList.
Context {X : Type}.
Variable enc : X -> string.
Variable ok : X -> Prop.
Variable close : ascii.
Hypothesis enc_inj : forall x1 x2 r1 r2,
  ok x1 -> ok x2 -> ends_number r1 -> ends_number r2 ->
  enc x1 ++ r1 = enc x2 ++ r2 -> x1 = x2 /\ r1 = r2.
Hypothesis enc_head : forall x r, exists t, enc x ++ r = String dquote t.
Hypothesis close_not_number : is_number_char close = false.
Hypothesis close_not_comma : close <> ","%char.
Hypothesis close_not_quote : close <> dquote.

Lemma more_ends_number (l : list string) (r : string) :
  ends_number (more_elements l (String close r)).
Proof. destruct l; [exact close_not_number|reflexivity]. Qed.

Lemma more_inj (l1 : list X) : forall l2 r1 r2,
  Forall ok l1 -> Forall ok l2 ->
  more_elements (List.map enc l1) (String close r1)
  = more_elements (List.map enc l2) (String close r2) ->
  l1 = l2 /\ r1 = r2.
Proof.
  induction l1 as [|x1 l1 IH]; intros [|x2 l2] r1 r2 H1 H2 H;
    cbn [List.map more_elements] in H.
  - injection H as ->. auto.
  - exfalso. change ("," ++ ?a) with (String "," a) in H.
    injection H as H _. auto.
  - exfalso. change ("," ++ ?a) with (String "," a) in H.
    injection H as H _. auto.
  - change ("," ++ ?a) with (String "," a) in H. injection H as H.
    inversion H1 as [|? ? Hx1 Hl1]; inversion H2 as [|? ? Hx2 Hl2]; subst.
    destruct (enc_inj _ _ _ _ Hx1 Hx2
                (more_ends_number _ _) (more_ends_number _ _) H) as [-> Hr].
    destruct (IH _ _ _ Hl1 Hl2 Hr) as [-> ->]. auto.
Qed.

Lemma seplist_inj (l1 l2 : list X) (r1 r2 : string) :
  Forall ok l1 -> Forall ok l2 ->
  concat "," (List.map enc l1) ++ String close r1
  = concat "," (List.map enc l2) ++ String close r2 ->
  l1 = l2 /\ r1 = r2.
Proof.
  intros H1 H2 H.
  destruct l1 as [|x1 l1], l2 as [|x2 l2]; cbn [List.map] in H;
    rewrite ?concat_more in H;
    change (concat "," [] ++ ?a) with a in H.
  - injection H as ->. auto.
  - exfalso. destruct (enc_head x2
      (more_elements (List.map enc l2) (String close r2))) as [t Ht].
    rewrite Ht in H. injection H as H _. auto.
  - exfalso. destruct (enc_head x1
      (more_elements (List.map enc l1) (String close r1))) as [t Ht].
    rewrite Ht in H. injection H as H _. auto.
  - inversion H1 as [|? ? Hx1 Hl1]; inversion H2 as [|? ? Hx2 Hl2]; subst.
    destruct (enc_inj _ _ _ _ Hx1 Hx2
                (more_ends_number _ _) (more_ends_number _ _) H) as [-> Hr].
    destruct (more_inj _ _ _ _ Hl1 Hl2 Hr) as [-> ->]. auto.
Qed.
End SepList.

(** *** Values, properties, objects *)

Lemma value_prefix_inj (v1 v2 : JsPrim) (r1 r2 : string) :
  is_defined v1 = true -> is_defined v2 = true ->
  ends_number r1 -> ends_number r2 ->
  value_string v1 ++ r1 = value_string v2 ++ r2 -> v1 = v2 /\ r1 = r2.
Proof.
  intros D1 D2 H1 H2 H.
  destruct v1 as [|s1|n1], v2 as [|s2|n2]; try discriminate;
    unfold value_string in H; cbn [stringify_prim] in H.
  - destruct (quote_prefix_inj _ _ _ _ H) as [-> ->]. auto.
  - exfalso. rewrite quote_app in H.
    destruct (number_to_string_head n2) as (c & rest & E & Hc).
    rewrite E, append_cons in H. injection H as <- _.
    vm_compute in Hc. discriminate Hc.
  - exfalso. rewrite quote_app in H.
    destruct (number_to_string_head n1) as (c & rest & E & Hc).
    rewrite E, append_cons in H. injection H as -> _.
    vm_compute in Hc. discriminate Hc.
  - destruct (number_prefix_inj _ _ _ _ H1 H2 H) as [-> ->]. auto.
Qed.

Lemma property_prefix_inj (kv1 kv2 : string * JsPrim) (r1 r2 : string) :
  is_defined (snd kv1) = true -> is_defined (snd kv2) = true ->
  ends_number r1 -> ends_number r2 ->
  property_string kv1 ++ r1 = property_string kv2 ++ r2 ->
  kv1 = kv2 /\ r1 = r2.
Proof.
  destruct kv1 as [k1 v1], kv2 as [k2 v2]. cbn [fst snd].
  intros D1 D2 H1 H2 H. unfold property_string in H. cbn [fst snd] in H.
  rewrite !append_assoc in H.
  destruct (quote_prefix_inj _ _ _ _ H) as [-> H'].
  rewrite !append_cons, !append_nil in H'. injection H' as H'.
  destruct (value_prefix_inj _ _ _ _ D1 D2 H1 H2 H') as [-> ->]. auto.
Qed.

Lemma property_head (kv : string * JsPrim) (r : string) :
  exists t, property_string kv ++ r = String dquote t.
Proof.
  unfold property_string. rewrite append_assoc, quote_app. eauto.
Qed.

Lemma stringify_properties_map (o : JsObject) :
  stringify_properties o
  = List.map property_string (defined_properties o).
Proof.
  induction o as [|[k v] o IH]; [reflexivity|].
  destruct v; cbn [stringify_properties defined_properties List.filter
                   snd is_defined List.map];
    unfold stringify_property; cbn [snd fst stringify_prim];
    rewrite ?IH; reflexivity.
Qed.

Lemma defined_properties_ok (o : JsObject) :
  Forall (fun kv => is_defined (snd kv) = true) (defined_properties o).
Proof.
  unfold defined_properties. apply Forall_forall.
  intros kv Hin. apply filter_In in Hin. destruct Hin as [_ H].
  destruct (snd kv); [discriminate| |]; reflexivity.
Qed.

Lemma object_inj (o1 o2 : JsObject) (r1 r2 : string) :
  concat "," (stringify_properties o1) ++ String "}" r1
  = concat "," (stringify_properties o2) ++ String "}" r2 ->
  defined_properties o1 = defined_properties o2 /\ r1 = r2.
Proof.
  rewrite !stringify_properties_map.
  apply (seplist_inj property_string
           (fun kv => is_defined (snd kv) = true) "}"%char).
  - intros x1 x2 s1 s2. apply property_prefix_inj.
  - apply property_head.
  - reflexivity.
  - discriminate.
  - discriminate.
  - apply defined_properties_ok.
  - apply defined_properties_ok.
Qed.

Lemma names_inj (l1 l2 : list string) (r1 r2 : string) :
  concat "," (List.map quote l1) ++ String "]" r1
  = concat "," (List.map quote l2) ++ String "]" r2 ->
  l1 = l2 /\ r1 = r2.
Proof.
  apply (seplist_inj quote (fun _ => True) "]"%char).
  - intros x1 x2 s1 s2 _ _ _ _. apply quote_prefix_inj.
  - intros x r. rewrite quote_app. eauto.
  - reflexivity.
  - discriminate.
  - discriminate.
  - apply Forall_forall. auto.
  - apply Forall_forall. auto.
Qed.
(** *** The whole key *)

Lemma cache_key_shape (operation : string) (params : JsObject)
    (sourcesFilter : option (list string)) :
  FlightAggregator.cache_key operation params sourcesFilter
  = quote operation
    ++ String ":"
         (String "{"
            (concat "," (stringify_properties params)
             ++ String "}" (String ":" (filter_string sourcesFilter)))).
Proof.
  unfold FlightAggregator.cache_key, TTLCache.buildKey.
  cbn [List.map stringify stringify_prim].
  assert (Hf : match stringify (FlightAggregator.filter_value sourcesFilter)
               with Some s => s | None => "" end
               = filter_string sourcesFilter).
  { destruct sourcesFilter as [names|]; [|reflexivity].
    cbn [FlightAggregator.filter_value stringify filter_string].
    rewrite map_map. reflexivity. }
  rewrite Hf.
  change (concat ":" [?a; ?b; ?c]) with (a ++ ":" ++ b ++ ":" ++ c).
  change ("{" ++ ?a) with (String "{" a).
  rewrite !append_cons, !append_assoc, !append_cons, !append_nil.
  reflexivity.
Qed.

Lemma filter_string_inj (f1 f2 : option (list string)) :
  filter_string f1 = filter_string f2 -> f1 = f2.
Proof.
  destruct f1 as [l1|], f2 as [l2|]; cbn [filter_string]; intros H;
    try discriminate; [|reflexivity].
  injection H as H. destruct (names_inj _ _ _ _ H) as [-> _]. reflexivity.
Qed.

Lemma cache_key_inj op1 op2 p1 p2 f1 f2 :
  FlightAggregator.cache_key op1 p1 f1 = FlightAggregator.cache_key op2 p2 f2 ->
  op1 = op2 /\ defined_properties p1 = defined_properties p2 /\ f1 = f2.
Proof.
  rewrite !cache_key_shape. intros H.
  destruct (quote_prefix_inj _ _ _ _ H) as [-> H1].
  injection H1 as H1.
  destruct (object_inj _ _ _ _ H1) as [-> H2].
  injection H2 as H2. apply filter_string_inj in H2. auto.
Qed.

Lemma search_key_not_explore_key p1 f1 p2 f2 :
  FlightAggregator.cache_key "search" p1 f1
  <> FlightAggregator.cache_key "explore" p2 f2.
Proof.
  intros H. apply cache_key_inj in H. destruct H as [H _]. discriminate H.
Qed.
End KeyFacts.



(** X17: an empty source filter selects the same providers as no filter
    at all, but it is written into the key, so the two spellings of the
    same question are cached apart. *)
Theorem empty_filter_same_providers_other_key
    (agg : FlightAggregator.t) (operation : string) (params : JsObject) :
  FlightAggregator.getActiveProviders agg (Some [])
  = FlightAggregator.getActiveProviders agg None /\
  FlightAggregator.cache_key operation params (Some [])
  <> FlightAggregator.cache_key operation params None.
Proof.
  split.
  - unfold FlightAggregator.getActiveProviders. apply filter_ext.
    intros p. now destruct (IFlightProvider.isAvailable p).
  - intros H. apply KeyFacts.cache_key_inj in H.
    destruct H as (_ & _ & H). discriminate H.
Qed.

(** ** The aggregator over its lifetime *)

Module LifetimeFacts.


(** What a search does to the entry under any key [k]: nothing, or, when
    [k] is its own key and it computed, it stores its result there. *)
Lemma search_store_cases agg now_get now_set params sourcesFilter k :
  let run :=
    FlightAggregator.searchFlights agg now_get now_set params sourcesFilter in
  TTLCache.store (FlightAggregator.cache (FlightAggregator.after run)) !! k
  = TTLCache.store (FlightAggregator.cache agg) !! k \/
  (k = FlightAggregator.cache_key "search" params sourcesFilter /\
   exists flights expiry,
     TTLCache.store (FlightAggregator.cache (FlightAggregator.after run)) !! k
     = Some {| TTLCache.value :=
                 FlightAggregator.Flights (dedupe_and_sort flights);
               TTLCache.expires_at := expiry |}).
Proof.
  cbn zeta.
  destruct (fst (TTLCache.get now_get
                   (FlightAggregator.cache_key "search" params sourcesFilter)
                   (FlightAggregator.cache agg))) as [v|] eqn:Hget.
  - apply TTLCacheFacts.get_Some_iff in Hget.
    destruct Hget as (entry & Hlook & _ & Hle).
    rewrite (searchFlights_hit _ _ _ _ _ _ Hlook Hle). now left.
  - rewrite (searchFlights_miss _ _ _ _ _ Hget).
    cbn [FlightAggregator.after FlightAggregator.cache].
    destruct (string_dec
                (FlightAggregator.cache_key "search" params sourcesFilter) k)
      as [<-|Hne].
    + right. split; [reflexivity|]. do 2 eexists.
      apply TTLCacheFacts.lookup_set.
    + left. rewrite TTLCacheMore.lookup_set_ne by assumption.
      now apply TTLCacheMore.lookup_get_ne.
Qed.

Lemma explore_store_cases agg now_get now_set params sourcesFilter k :
  let run :=
    FlightAggregator.exploreDestinations agg now_get now_set params
      sourcesFilter in
  TTLCache.store (FlightAggregator.cache (FlightAggregator.after run)) !! k
  = TTLCache.store (FlightAggregator.cache agg) !! k \/
  (k = FlightAggregator.cache_key "explore" params sourcesFilter /\
   exists destinations expiry,
     TTLCache.store (FlightAggregator.cache (FlightAggregator.after run)) !! k
     = Some {| TTLCache.value :=
                 FlightAggregator.Destinations
                   (dedupe_sort_limit destinations
                      (obj_number "limit" params));
               TTLCache.expires_at := expiry |}).
Proof.
  cbn zeta.
  destruct (fst (TTLCache.get now_get
                   (FlightAggregator.cache_key "explore" params sourcesFilter)
                   (FlightAggregator.cache agg))) as [v|] eqn:Hget.
  - apply TTLCacheFacts.get_Some_iff in Hget.
    destruct Hget as (entry & Hlook & _ & Hle).
    rewrite (exploreDestinations_hit _ _ _ _ _ _ Hlook Hle). now left.
  - rewrite (exploreDestinations_miss_run _ _ _ _ _ Hget).
    cbn [FlightAggregator.after FlightAggregator.cache].
    destruct (string_dec
                (FlightAggregator.cache_key "explore" params sourcesFilter) k)
      as [<-|Hne].
    + right. split; [reflexivity|]. do 2 eexists.
      apply TTLCacheFacts.lookup_set.
    + left. rewrite TTLCacheMore.lookup_set_ne by assumption.
      now apply TTLCacheMore.lookup_get_ne.
Qed.

Lemma cache_after_snoc history c :
  cache_after (history ++ [c]) = run_call (cache_after history) c.
Proof. unfold cache_after. now rewrite fold_left_app. Qed.

Lemma search_entries_run_call c call :
  search_entries_aggregated c -> search_entries_aggregated (run_call c call).
Proof.
  intros Hinv params sourcesFilter entry Hlook.
  destruct call as [ps g s p f|ps g s p f]; cbn [run_call] in Hlook.
  - destruct (search_store_cases
                {| FlightAggregator.providers := ps;
                   FlightAggregator.cache := c |} g s p f
                (FlightAggregator.cache_key "search" params sourcesFilter))
      as [Hsame|(_ & fl & e & Hnew)].
    + rewrite Hsame in Hlook. eapply Hinv. exact Hlook.
    + rewrite Hnew in Hlook. injection Hlook as <-. eauto.
  - destruct (explore_store_cases
                {| FlightAggregator.providers := ps;
                   FlightAggregator.cache := c |} g s p f
                (FlightAggregator.cache_key "search" params sourcesFilter))
      as [Hsame|(Heq & _)].
    + rewrite Hsame in Hlook. eapply Hinv. exact Hlook.
    + exfalso. now apply KeyFacts.search_key_not_explore_key in Heq.
Qed.

Lemma search_entries_cache_after history :
  search_entries_aggregated (cache_after history).
Proof.
  induction history as [|c history IH] using rev_ind.
  - intros params sourcesFilter entry Hlook.
    unfold cache_after, TTLCache.new in Hlook. simpl in Hlook.
    rewrite lookup_empty in Hlook. discriminate.
  - rewrite cache_after_snoc. now apply search_entries_run_call.
Qed.

Lemma explore_entries_run_call c call :
  well_formed (call_params call) ->
  explore_entries_limited c -> explore_entries_limited (run_call c call).
Proof.
  intros Hwf Hinv params sourcesFilter entry Hlook.
  destruct call as [ps g s p f|ps g s p f]; cbn [run_call] in Hlook;
    cbn [call_params] in Hwf.
  - destruct (search_store_cases
                {| FlightAggregator.providers := ps;
                   FlightAggregator.cache := c |} g s p f
                (FlightAggregator.cache_key "explore" params sourcesFilter))
      as [Hsame|(Heq & _)].
    + rewrite Hsame in Hlook. eapply Hinv. exact Hlook.
    + exfalso. symmetry in Heq.
      now apply KeyFacts.search_key_not_explore_key in Heq.
  - destruct (explore_store_cases
                {| FlightAggregator.providers := ps;
                   FlightAggregator.cache := c |} g s p f
                (FlightAggregator.cache_key "explore" params sourcesFilter))
      as [Hsame|(Heq & ds & e & Hnew)].
    + rewrite Hsame in Hlook. eapply Hinv. exact Hlook.
    + rewrite Hnew in Hlook. injection Hlook as <-.
      apply KeyFacts.cache_key_inj in Heq. destruct Heq as (_ & Hp & _).
      exists ds, p. cbn [TTLCache.value]. auto.
Qed.

Lemma explore_entries_cache_after history :
  Forall (fun c => well_formed (call_params c)) history ->
  explore_entries_limited (cache_after history).
Proof.
  induction history as [|c history IH] using rev_ind; intros Hwf.
  - intros params sourcesFilter entry Hlook.
    unfold cache_after, TTLCache.new in Hlook. simpl in Hlook.
    rewrite lookup_empty in Hlook. discriminate.
  - rewrite cache_after_snoc. apply Forall_app in Hwf.
    destruct Hwf as [Hh Hc]. inversion Hc; subst.
    apply explore_entries_run_call; auto.
Qed.

Lemma obj_get_absent (field : string) (o : JsObject) :
  ~ In field (List.map fst o) -> obj_get field o = JsUndefined.
Proof.
  induction o as [|[k v] o IH]; simpl; [reflexivity|].
  intros Hnot. destruct (String.eqb_spec field k) as [->|Hne].
  - exfalso. apply Hnot. now left.
  - apply IH. intros Hin. apply Hnot. now right.
Qed.

(** Reading a property of a well-formed object does not see the
    properties that are [undefined]. *)
Lemma obj_get_defined (field : string) (o : JsObject) :
  well_formed o -> obj_get field (defined_properties o) = obj_get field o.
Proof.
  unfold well_formed.
  induction o as [|[k v] o IH]; [reflexivity|].
  cbn [List.map fst]. intros Hnd.
  inversion Hnd as [|? ? Hnotin Hnd']; subst.
  cbn [defined_properties List.filter snd obj_get].
  destruct (String.eqb_spec field k) as [->|Hne].
  - destruct v; cbn [obj_get]; rewrite ?String.eqb_refl; try reflexivity.
    fold (defined_properties o). rewrite IH by assumption.
    now apply obj_get_absent.
  - destruct v; cbn [obj_get]; fold (defined_properties o);
      try (apply String.eqb_neq in Hne; rewrite Hne); now apply IH.
Qed.

Lemma obj_number_same_defined (field : string) (o1 o2 : JsObject) :
  well_formed o1 -> well_formed o2 ->
  defined_properties o1 = defined_properties o2 ->
  obj_number field o1 = obj_number field o2.
Proof.
  intros H1 H2 H. unfold obj_number.
  now rewrite <- (obj_get_defined field o1 H1),
              <- (obj_get_defined field o2 H2), H.
Qed.

(** What any search returns, computed or cached. *)
Lemma search_reachable_result history ps now_get now_set params sourcesFilter :
  exists flights,
    FlightAggregator.returned
      (FlightAggregator.searchFlights
         {| FlightAggregator.providers := ps;
            FlightAggregator.cache := cache_after history |}
         now_get now_set params sourcesFilter)
    = dedupe_and_sort flights.
Proof.
  set (agg := {| FlightAggregator.providers := ps;
                 FlightAggregator.cache := cache_after history |}).
  destruct (fst (TTLCache.get now_get
                   (FlightAggregator.cache_key "search" params sourcesFilter)
                   (FlightAggregator.cache agg))) as [v|] eqn:Hget.
  - apply TTLCacheFacts.get_Some_iff in Hget.
    destruct Hget as (entry & Hlook & _ & Hle).
    rewrite (searchFlights_hit _ _ _ _ _ _ Hlook Hle).
    destruct (search_entries_cache_after history _ _ _ Hlook) as [fl Hv].
    exists fl. cbn [FlightAggregator.returned]. now rewrite Hv.
  - rewrite (searchFlights_miss _ _ _ _ _ Hget). eauto.
Qed.

(** What any explore returns, computed or cached. *)
Lemma explore_reachable_result history ps now_get now_set params
    sourcesFilter :
  Forall (fun c => well_formed (call_params c)) history ->
  well_formed params ->
  exists destinations,
    FlightAggregator.returned
      (FlightAggregator.exploreDestinations
         {| FlightAggregator.providers := ps;
            FlightAggregator.cache := cache_after history |}
         now_get now_set params sourcesFilter)
    = dedupe_sort_limit destinations (obj_number "limit" params).
Proof.
  intros Hh Hwf.
  set (agg := {| FlightAggregator.providers := ps;
                 FlightAggregator.cache := cache_after history |}).
  destruct (fst (TTLCache.get now_get
                   (FlightAggregator.cache_key "explore" params sourcesFilter)
                   (FlightAggregator.cache agg))) as [v|] eqn:Hget.
  - apply TTLCacheFacts.get_Some_iff in Hget.
    destruct Hget as (entry & Hlook & _ & Hle).
    rewrite (exploreDestinations_hit _ _ _ _ _ _ Hlook Hle).
    destruct (explore_entries_cache_after history Hh _ _ _ Hlook)
      as (ds & p0 & Hv & Hwf0 & Hp).
    exists ds. cbn [FlightAggregator.returned]. rewrite Hv.
    cbn [FlightAggregator.as_destinations].
    now rewrite (obj_number_same_defined "limit" p0 params Hwf0 Hwf Hp).
  - rewrite (exploreDestinations_miss_run _ _ _ _ _ Hget). eauto.
Qed.
End LifetimeFacts.

Lemma dedupe_and_sort_shape (flights : list NormalizedFlight.t) :
  NoDup (List.map composite_key (dedupe_and_sort flights)) /\
  StronglySorted price_then_duration (dedupe_and_sort flights).
Proof.
  unfold dedupe_and_sort, deduplicate. split.
  - apply js_sort_NoDup_map.
    apply (NoDup_map_coarser flight_key composite_key).
    + intros x y. apply composite_key_flight_key.
    + apply cheapest_by_key_NoDup.
  - apply js_sort_sorted.
    + apply price_then_duration_trans.
    + apply compare_flights_le.
    + apply compare_flights_gt.
Qed.

(** X18: whatever calls an aggregator has served since it was built, and
    whether the answer is computed or comes from the cache, the list a
    search returns is the aggregation of some list of candidates: it has
    at most one offer per composite key and is sorted by price, then
    duration.  The unchecked cast of the cached value never goes wrong. *)
Theorem every_search_is_aggregated
    (history : list Call) (providers : list IFlightProvider.t)
    (now_get now_set : Z) (params : JsObject)
    (sourcesFilter : option (list string)) :
  let run :=
    FlightAggregator.searchFlights
      {| FlightAggregator.providers := providers;
         FlightAggregator.cache := cache_after history |}
      now_get now_set params sourcesFilter in
  (exists flights,
     FlightAggregator.returned run = dedupe_and_sort flights) /\
  NoDup (List.map composite_key (FlightAggregator.returned run)) /\
  StronglySorted price_then_duration (FlightAggregator.returned run) /\
  (forall entry,
     TTLCache.store (cache_after history)
       !! FlightAggregator.cache_key "search" params sourcesFilter
     = Some entry ->
     TTLCache.value entry
     = FlightAggregator.Flights
         (FlightAggregator.as_flights (TTLCache.value entry))).
Proof.
  cbn zeta.
  destruct (LifetimeFacts.search_reachable_result history providers
              now_get now_set params sourcesFilter) as [fl Hfl].
  rewrite Hfl.
  destruct (dedupe_and_sort_shape fl) as [Hnd Hs].
  split; [eauto|]. split; [exact Hnd|]. split; [exact Hs|].
  intros entry Hlook.
  destruct (LifetimeFacts.search_entries_cache_after history _ _ _ Hlook)
    as [fl' ->].
  reflexivity.
Qed.

(** X19: whatever calls with well-formed requests an aggregator has
    served, an explore for a well-formed request with limit [>= 0], be it
    computed or answered from the cache, returns at most [limit] offers,
    no two for one destination, in non-decreasing order of price. *)
Theorem every_explore_honours_limit
    (history : list Call) (providers : list IFlightProvider.t)
    (now_get now_set : Z) (params : JsObject)
    (sourcesFilter : option (list string)) (limit : Z) :
  Forall (fun c => well_formed (call_params c)) history ->
  well_formed params ->
  obj_number "limit" params = Some limit ->
  (0 <= limit)%Z ->
  let out :=
    FlightAggregator.returned
      (FlightAggregator.exploreDestinations
         {| FlightAggregator.providers := providers;
            FlightAggregator.cache := cache_after history |}
         now_get now_set params sourcesFilter) in
  (Z.of_nat (List.length out) <= limit)%Z /\
  NoDup (List.map ExploreResult.destination out) /\
  StronglySorted price_le out.
Proof.
  intros Hh Hwf Hlimit Hnonneg. cbn zeta.
  destruct (LifetimeFacts.explore_reachable_result history providers
              now_get now_set params sourcesFilter Hh Hwf) as [ds Hds].
  rewrite Hds, Hlimit.
  destruct (dedupe_sort_limit_facts ds limit Hnonneg)
    as (Hlen & Hnd & _ & Hs & _).
  auto.
Qed.

Lemma two_calls_well_formed :
  Forall (fun c => well_formed (call_params c)) two_calls.
Proof.
  repeat constructor; simpl; intuition discriminate.
Qed.

Lemma explore_request_well_formed : well_formed explore_request.
Proof. repeat constructor; simpl; intuition discriminate. Qed.

Lemma every_explore_honours_limit_witness :
  Forall (fun c => well_formed (call_params c)) two_calls /\
  well_formed explore_request /\
  obj_number "limit" explore_request = Some 2%Z /\
  (0 <= 2)%Z /\
  (Z.of_nat
     (List.length
        (FlightAggregator.returned
           (FlightAggregator.exploreDestinations
              {| FlightAggregator.providers := later_sources;
                 FlightAggregator.cache := cache_after two_calls |}
              120000 120050 explore_request None))) <= 2)%Z.
Proof.
  split; [exact two_calls_well_formed|].
  split; [exact explore_request_well_formed|].
  split; [reflexivity|]. split; [lia|].
  destruct (every_explore_honours_limit two_calls later_sources
              120000 120050 explore_request None 2
              two_calls_well_formed explore_request_well_formed
              eq_refl) as [H _]; [lia|exact H].
Defined.

Lemma explore_tool_params_well_formed input :
  well_formed (explore_tool_params input).
Proof. repeat constructor; simpl; intuition discriminate. Qed.

(** X20: the explore tool honours its [limit] input: for a limit [>= 0]
    (the default is 15) the handler gets at most that many destinations
    from the aggregator, in every state the aggregator can be in, with or
    without a cache hit. *)
Theorem explore_tool_honours_limit
    (history : list Call) (providers : list IFlightProvider.t)
    (now_get now_set : Z) (input : ExploreInput.t) :
  Forall (fun c => well_formed (call_params c)) history ->
  (0 <= ExploreInput.limit input)%Z ->
  (Z.of_nat
     (List.length
        (FlightAggregator.returned
           (handleExplore input
              {| FlightAggregator.providers := providers;
                 FlightAggregator.cache := cache_after history |}
              now_get now_set)))
   <= ExploreInput.limit input)%Z.
Proof.
  intros Hh Hnonneg. unfold handleExplore.
  destruct (LifetimeFacts.explore_reachable_result history providers
              now_get now_set (explore_tool_params input) None Hh
              (explore_tool_params_well_formed input)) as [ds Hds].
  rewrite Hds.
  change (obj_number "limit" (explore_tool_params input))
    with (Some (ExploreInput.limit input)).
  now destruct (dedupe_sort_limit_facts ds _ Hnonneg) as [Hlen _].
Qed.

Lemma explore_tool_honours_limit_witness :
  Forall (fun c => well_formed (call_params c)) two_calls /\
  (0 <= ExploreInput.limit krakow_explore)%Z /\
  (Z.of_nat
     (List.length
        (FlightAggregator.returned
           (handleExplore krakow_explore
              {| FlightAggregator.providers := later_sources;
                 FlightAggregator.cache := cache_after two_calls |}
              120000 120050)))
   <= ExploreInput.limit krakow_explore)%Z.
Proof.
  assert (H : (0 <= ExploreInput.limit krakow_explore)%Z)
    by (simpl; lia).
  split; [exact two_calls_well_formed|]. split; [exact H|].
  exact (explore_tool_honours_limit two_calls later_sources 120000 120050
           krakow_explore two_calls_well_formed H).
Defined.



(** X22: searches and explores never touch each other's entries, and a
    call never touches the entry of a different request: what the cache
    answers under any key other than the call's own is the same before and
    after the call. *)
Theorem calls_leave_other_entries_alone
    (agg : FlightAggregator.t) (now_get now_set : Z)
    (params : JsObject) (sourcesFilter : option (list string))
    (k : string) (t : Z) :
  (k <> FlightAggregator.cache_key "search" params sourcesFilter ->
   fst (TTLCache.get t k
          (FlightAggregator.cache
             (FlightAggregator.after
                (FlightAggregator.searchFlights agg now_get now_set params
                   sourcesFilter))))
   = fst (TTLCache.get t k (FlightAggregator.cache agg))) /\
  (k <> FlightAggregator.cache_key "explore" params sourcesFilter ->
   fst (TTLCache.get t k
          (FlightAggregator.cache
             (FlightAggregator.after
                (FlightAggregator.exploreDestinations agg now_get now_set
                   params sourcesFilter))))
   = fst (TTLCache.get t k (FlightAggregator.cache agg))) /\
  (forall params' sourcesFilter',
     FlightAggregator.cache_key "explore" params' sourcesFilter'
     <> FlightAggregator.cache_key "search" params sourcesFilter).
Proof.
  split; [|split].
  - intros Hne. apply TTLCacheMore.get_fst_lookup.
    destruct (LifetimeFacts.search_store_cases agg now_get now_set params
                sourcesFilter k) as [H|[H _]]; [exact H|contradiction].
  - intros Hne. apply TTLCacheMore.get_fst_lookup.
    destruct (LifetimeFacts.explore_store_cases agg now_get now_set params
                sourcesFilter k) as [H|[H _]]; [exact H|contradiction].
  - intros params' sourcesFilter' H. symmetry in H.
    now apply KeyFacts.search_key_not_explore_key in H.
Qed.

(** ** The comparison table *)

Module CompareFacts.

Lemma group_by_source_snoc flights f :
  group_by_source (flights ++ [f])
  = group_step (group_by_source flights) f.
Proof. unfold group_by_source. now rewrite fold_left_app. Qed.

Lemma of_source_snoc src flights f :
  of_source src (flights ++ [f])
  = of_source src flights
    ++ (if String.eqb (NormalizedFlight.source f) src then [f] else []).
Proof. unfold of_source. now rewrite filter_app. Qed.

(** The group of a source is the flights of that source, in list order;
    a source without flights has no group. *)
Lemma group_get flights src :
  JsMap.get src (group_by_source flights)
  = match of_source src flights with
    | [] => None
    | l => Some l
    end.
Proof.
  induction flights as [|f flights IH] using rev_ind; [reflexivity|].
  rewrite group_by_source_snoc, of_source_snoc. unfold group_step.
  destruct (String.eqb_spec (NormalizedFlight.source f) src) as [->|Hne].
  - rewrite JsMapFacts.get_set_eq, IH.
    destruct (of_source src flights) as [|x l]; reflexivity.
  - rewrite JsMapFacts.get_set_ne by assumption.
    rewrite app_nil_r. exact IH.
Qed.

Lemma compare_row_head flights src :
  compare_row (group_by_source flights) src
  = List.hd_error (of_source src flights).
Proof.
  unfold compare_row. rewrite group_get.
  now destruct (of_source src flights).
Qed.

Lemma price_then_duration_price a b :
  price_then_duration a b ->
  (NormalizedFlight.price a <= NormalizedFlight.price b)%Q.
Proof. intros [H|[H _]]; lra. Qed.

(** In a sorted list the first element that satisfies a test is below
    every other that does. *)
Lemma sorted_filter_head {A : Type} (le : A -> A -> Prop) (P : A -> bool)
    (l : list A) (x : A) :
  (forall a, le a a) ->
  StronglySorted le l ->
  List.hd_error (List.filter P l) = Some x ->
  In x l /\ P x = true /\
  forall y, In y l -> P y = true -> le x y.
Proof.
  intros Hrefl Hs. induction Hs as [|a l Hs IH Hall]; simpl; [discriminate|].
  destruct (P a) eqn:Pa; simpl.
  - intros [= <-]. split; [now left|]. split; [assumption|].
    intros y [<-|Hy] _; [apply Hrefl|].
    rewrite Forall_forall in Hall. now apply Hall.
  - intros Hhd. destruct (IH Hhd) as (Hin & Px & Hmin).
    split; [now right|]. split; [assumption|].
    intros y [<-|Hy] Py; [congruence|now apply Hmin].
Qed.

Lemma compare_row_None flights src :
  compare_row (group_by_source flights) src = None <->
  forall g, In g flights -> NormalizedFlight.source g <> src.
Proof.
  rewrite compare_row_head. unfold of_source. split.
  - intros Hnone g Hg Hsrc.
    assert (In g (List.filter
                    (fun f => String.eqb (NormalizedFlight.source f) src)
                    flights)) as Hin.
    { apply filter_In. split; [assumption|]. now apply String.eqb_eq. }
    destruct (List.filter _ flights); [destruct Hin|discriminate].
  - intros Hall.
    destruct (List.filter _ flights) as [|x l] eqn:E; [reflexivity|].
    exfalso.
    assert (In x (List.filter
                    (fun f => String.eqb (NormalizedFlight.source f) src)
                    flights)) as Hin by (rewrite E; now left).
    apply filter_In in Hin. destruct Hin as [Hin Hsrc].
    apply String.eqb_eq in Hsrc. now apply (Hall x Hin).
Qed.
End CompareFacts.

(** X23: the comparison table keeps the promise of its comment "already
    sorted by price".  Whatever state the aggregator is in, for the
    flights that [handleCompare] gets from it, the row of each source is
    built from a flight of that source that no other returned flight of
    the source undercuts; and a row reads N/A exactly when no returned
    flight is of that source. *)
Theorem compare_rows_show_the_cheapest
    (history : list Call) (providers : list IFlightProvider.t)
    (now_get now_set : Z) (input : CompareInput.t) (src : string) :
  let flights :=
    FlightAggregator.returned
      (handleCompare input
         {| FlightAggregator.providers := providers;
            FlightAggregator.cache := cache_after history |}
         now_get now_set) in
  let row := compare_row (group_by_source flights) src in
  (forall cheapest, row = Some cheapest ->
     In cheapest flights /\
     NormalizedFlight.source cheapest = src /\
     forall g, In g flights -> NormalizedFlight.source g = src ->
       (NormalizedFlight.price cheapest <= NormalizedFlight.price g)%Q) /\
  (row = None <->
   forall g, In g flights -> NormalizedFlight.source g <> src).
Proof.
  cbn zeta. unfold handleCompare.
  destruct (LifetimeFacts.search_reachable_result history providers
              now_get now_set (compare_tool_params input) None)
    as [fl Hfl].
  rewrite Hfl. split; [|apply CompareFacts.compare_row_None].
  intros cheapest Hrow. rewrite CompareFacts.compare_row_head in Hrow.
  destruct (dedupe_and_sort_shape fl) as [_ Hs].
  destruct (CompareFacts.sorted_filter_head price_then_duration _ _ _
              (fun a => or_intror (conj (Qeq_refl _) (Z.le_refl _)))
              Hs Hrow) as (Hin & Hsrc & Hmin).
  split; [exact Hin|]. split; [now apply String.eqb_eq|].
  intros g Hg Hgs. apply CompareFacts.price_then_duration_price.
  apply Hmin; [exact Hg|]. now apply String.eqb_eq.
Qed.

(** ** The Ryanair provider's offers *)

Lemma NoDup_map_coarser_in {A B C : Type} (f : A -> B) (g : A -> C)
    (l : list A) :
  (forall x y, In x l -> In y l -> g x = g y -> f x = f y) ->
  NoDup (List.map f l) -> NoDup (List.map g l).
Proof.
  induction l as [|x l IH]; simpl; intros Hfg Hnd.
  - constructor.
  - inversion Hnd as [|? ? Hnotin Hnd']; subst. constructor.
    + intros Hin. apply Hnotin.
      apply in_map_iff in Hin. destruct Hin as (y & Hy & Hin).
      apply in_map_iff. exists y. split; [|assumption].
      apply Hfg; auto.
    + apply IH; [|assumption]. intros a b Ha Hb. apply Hfg; auto.
Qed.

Lemma string_app_inv_head (p a b : string) :
  (p ++ a)%string = (p ++ b)%string -> a = b.
Proof.
  induction p as [|c p IH]; [trivial|].
  rewrite !KeyFacts.append_cons. intros H. injection H as H. auto.
Qed.

Lemma string_app_inv_tail (s a : string) : forall b,
  String.length a = String.length b ->
  (a ++ s)%string = (b ++ s)%string -> a = b.
Proof.
  induction a as [|c a IH]; intros [|d b] Hlen; try discriminate.
  - reflexivity.
  - rewrite !KeyFacts.append_cons. intros H. injection H as -> H.
    f_equal. apply IH; [|assumption]. simpl in Hlen. lia.
Qed.

Lemma string_length_append (a b : string) :
  String.length (a ++ b)%string = (String.length a + String.length b)%nat.
Proof.
  induction a as [|c a IH]; [reflexivity|].
  rewrite KeyFacts.append_cons. simpl. now rewrite IH.
Qed.

Module RyanairFacts.

Lemma offer_of_fare_Some params fare f :
  Ryanair.offer_of_fare params fare = Some f ->
  (exists p,
      Ryanair.price fare = Some p /\
      NormalizedFlight.price f = Ryanair.value p) /\
  Ryanair.departureDate fare <> "" /\
  NormalizedFlight.departure_time f = Ryanair.departureDate fare /\
  NormalizedFlight.source f = "ryanair" /\
  NormalizedFlight.airline_code f = "FR" /\
  NormalizedFlight.flight_number f
    = ("FR-" ++ SearchParams.origin params ++ "-"
       ++ SearchParams.destination params)%string /\
  NormalizedFlight.origin f = SearchParams.origin params /\
  NormalizedFlight.destination f = SearchParams.destination params /\
  NormalizedFlight.stops f = 0 /\
  String.ltb (depDate f) (SearchParams.date_from params) = false /\
  (forall date_to,
      Ryanair.given_date (SearchParams.date_to params) = Some date_to ->
      String.ltb date_to (depDate f) = false) /\
  (Ryanair.given_date (SearchParams.date_to params) = None ->
   depDate f = SearchParams.date_from params) /\
  (forall max_price,
      Ryanair.given_price (SearchParams.max_price params) = Some max_price ->
      (NormalizedFlight.price f <= inject_Z max_price)%Q).
Proof.
  unfold Ryanair.offer_of_fare.
  destruct (Ryanair.price fare) as [p|]; [|discriminate].
  destruct (String.eqb (Ryanair.departureDate fare) "") eqn:Hd;
    [discriminate|].
  destruct (String.ltb _ (SearchParams.date_from params)) eqn:Hfrom;
    [discriminate|].
  destruct (match Ryanair.given_date (SearchParams.date_to params) with
            | Some date_to => _ | None => _ end) eqn:Hto; [discriminate|].
  destruct (match Ryanair.given_price (SearchParams.max_price params) with
            | Some max_price => _ | None => _ end) eqn:Hmax; [discriminate|].
  intros H. injection H as <-. unfold depDate.
  cbn [NormalizedFlight.price NormalizedFlight.departure_time
       NormalizedFlight.source NormalizedFlight.airline_code
       NormalizedFlight.flight_number NormalizedFlight.origin
       NormalizedFlight.destination NormalizedFlight.stops].
  repeat match goal with |- _ /\ _ => split end;
    try reflexivity; try assumption.
  - now exists p.
  - now apply String.eqb_neq in Hd.
  - intros date_to E. now rewrite E in Hto.
  - intros E. rewrite E in Hto.
    apply negb_false_iff in Hto. now apply String.eqb_eq in Hto.
  - intros max_price E. rewrite E in Hmax. now apply Qltb_false in Hmax.
Qed.

Lemma In_offers_of_fares params fares f :
  In f (Ryanair.offers_of_fares params fares) <->
  exists fare, In fare fares /\ Ryanair.offer_of_fare params fare = Some f.
Proof.
  induction fares as [|fare fares IH]; simpl.
  - split; [intros []|intros (? & [] & _)].
  - destruct (Ryanair.offer_of_fare params fare) as [g|] eqn:E.
    + simpl. rewrite IH. split.
      * intros [<-|(fare' & Hin & Hf)]; [exists fare; auto|].
        exists fare'; auto.
      * intros (fare' & [<-|Hin] & Hf).
        -- left. congruence.
        -- right. exists fare'; auto.
    + rewrite IH. split.
      * intros (fare' & Hin & Hf). exists fare'; auto.
      * intros (fare' & [<-|Hin] & Hf); [congruence|]. exists fare'; auto.
Qed.

(** The offers of one reply differ in their joined key only by the day. *)
Lemma flight_key_of_offer params fares f :
  In f (Ryanair.offers_of_fares params fares) ->
  flight_key f
  = ("FR" ++ "-" ++
     ("FR-" ++ SearchParams.origin params ++ "-"
      ++ SearchParams.destination params) ++ "-" ++
     depDate f ++ "-" ++
     SearchParams.origin params ++ "-" ++
     SearchParams.destination params)%string.
Proof.
  intros Hin. apply In_offers_of_fares in Hin.
  destruct Hin as (fare & _ & Hf).
  apply offer_of_fare_Some in Hf.
  destruct Hf as (_ & _ & _ & _ & Hc & Hn & Ho & Hd & _).
  unfold flight_key. now rewrite Hc, Hn, Ho, Hd.
Qed.

Lemma same_key_same_day params fares f g :
  In f (Ryanair.offers_of_fares params fares) ->
  In g (Ryanair.offers_of_fares params fares) ->
  flight_key f = flight_key g -> depDate f = depDate g.
Proof.
  intros Hf Hg.
  rewrite (flight_key_of_offer _ _ _ Hf), (flight_key_of_offer _ _ _ Hg).
  intros H. do 4 apply string_app_inv_head in H.
  assert (Hlen : String.length (depDate f) = String.length (depDate g)).
  { apply (f_equal String.length) in H.
    rewrite !string_length_append in H. lia. }
  revert H. now apply string_app_inv_tail.
Qed.

Lemma same_day_same_key params fares f g :
  In f (Ryanair.offers_of_fares params fares) ->
  In g (Ryanair.offers_of_fares params fares) ->
  depDate f = depDate g -> flight_key f = flight_key g.
Proof.
  intros Hf Hg Hday.
  rewrite (flight_key_of_offer _ _ _ Hf), (flight_key_of_offer _ _ _ Hg).
  now rewrite Hday.
Qed.

End RyanairFacts.

(** X24: every offer the Ryanair provider returns for a request comes from
    a priced fare of the reply, is a direct FR flight on the requested
    route, departs no earlier than [date_from], no later than [date_to]
    when that is given and on [date_from] itself when it is not, and costs
    no more than [max_price] when that is given. *)
Theorem ryanair_offers_within_request
    (params : SearchParams.t) (fares : option (list Ryanair.Fare))
    (offers : list NormalizedFlight.t) (f : NormalizedFlight.t) :
  Ryanair.searchFlights params (Ryanair.Body fares) = fulfilled offers ->
  In f offers ->
  (exists fare p,
      fares <> None /\
      In fare (match fares with Some l => l | None => [] end) /\
      Ryanair.price fare = Some p /\
      NormalizedFlight.price f = Ryanair.value p /\
      NormalizedFlight.departure_time f = Ryanair.departureDate fare) /\
  NormalizedFlight.airline_code f = "FR" /\
  NormalizedFlight.origin f = SearchParams.origin params /\
  NormalizedFlight.destination f = SearchParams.destination params /\
  NormalizedFlight.stops f = 0 /\
  String.ltb (depDate f) (SearchParams.date_from params) = false /\
  (forall date_to,
      Ryanair.given_date (SearchParams.date_to params) = Some date_to ->
      String.ltb date_to (depDate f) = false) /\
  (Ryanair.given_date (SearchParams.date_to params) = None ->
   depDate f = SearchParams.date_from params) /\
  (forall max_price,
      Ryanair.given_price (SearchParams.max_price params) = Some max_price ->
      (NormalizedFlight.price f <= inject_Z max_price)%Q).
Proof.
  cbn [Ryanair.searchFlights]. intros H Hin. injection H as <-.
  apply RyanairFacts.In_offers_of_fares in Hin.
  destruct Hin as (fare & Hfare & Hf).
  apply RyanairFacts.offer_of_fare_Some in Hf.
  destruct Hf as ((p & Hp & Hv) & _ & Ht & _ & Hc & _ & Ho & Hd & Hs
                  & Hfrom & Hto & Hday & Hmax).
  repeat match goal with |- _ /\ _ => split end; try assumption.
  exists fare, p. repeat split; try assumption.
  intros ->. destruct Hfare.
Qed.

Lemma ryanair_offers_within_request_witness :
  exists f,
    In f (Ryanair.offers_of_fares krakow_to_stansted june_fares) /\
    NormalizedFlight.airline_code f = "FR" /\
    (NormalizedFlight.price f <= inject_Z 300)%Q.
Proof.
  pose (offers := Ryanair.offers_of_fares krakow_to_stansted june_fares).
  assert (Hrun : Ryanair.searchFlights krakow_to_stansted
                   (Ryanair.Body (Some june_fares)) = fulfilled offers)
    by reflexivity.
  assert (Hin : In (hd ryanair_offer offers) offers)
    by (vm_compute; left; reflexivity).
  exists (hd ryanair_offer offers). split; [exact Hin|].
  destruct (ryanair_offers_within_request
              krakow_to_stansted (Some june_fares) offers _ Hrun Hin)
    as (_ & Hc & _ & _ & _ & _ & _ & _ & Hmax).
  split; [exact Hc|]. apply Hmax. reflexivity.
Defined.

(** X25: after the aggregator's dedupe and sort, the offers of one Ryanair
    reply hold exactly one offer for each departure day that had one, and
    it is the cheapest of that day. *)
Theorem ryanair_one_offer_per_day
    (params : SearchParams.t) (fares : list Ryanair.Fare) :
  let offers := Ryanair.offers_of_fares params fares in
  let out := dedupe_and_sort offers in
  NoDup (List.map depDate out) /\
  (forall o, In o out ->
     In o offers /\
     forall f, In f offers -> depDate f = depDate o ->
               (NormalizedFlight.price o <= NormalizedFlight.price f)%Q) /\
  (forall f, In f offers -> exists o, In o out /\ depDate o = depDate f).
Proof.
  cbn zeta. unfold dedupe_and_sort, deduplicate.
  set (offers := Ryanair.offers_of_fares params fares).
  assert (Hsub : forall o,
             In o (cheapest_by_key flight_key NormalizedFlight.price offers)
             -> In o offers).
  { intros o Ho. apply cheapest_by_key_first in Ho.
    eapply first_cheapest_In; eassumption. }
  split; [|split].
  - apply js_sort_NoDup_map.
    apply (NoDup_map_coarser_in flight_key depDate).
    + intros x y Hx Hy. apply (RyanairFacts.same_day_same_key params fares);
        now apply Hsub.
    + apply cheapest_by_key_NoDup.
  - intros o Hin. apply js_sort_In in Hin. split; [now apply Hsub|].
    intros f Hf Hday.
    pose proof (Hsub _ Hin) as Ho.
    apply cheapest_by_key_first in Hin.
    apply (first_cheapest_min _ _ _ _ _ Hin Hf).
    now apply (RyanairFacts.same_day_same_key params fares).
  - intros f Hf.
    destruct (cheapest_by_key_cover flight_key NormalizedFlight.price _ _ Hf)
      as (v & Hv & Hk & _).
    exists v. split; [now apply js_sort_In|].
    apply (RyanairFacts.same_key_same_day params fares); auto.
Qed.
